(** * The exam-paper pipeline: hardware tuning, hybrid scheduling, task store
      and SSE reader

    A shallow embedding of the parts of the repository that the
    specification talks about, and the properties that hold of them. *)

From Stdlib Require Import ZArith QArith Qround Qminmax Lia Lqa List Bool.
From stdpp Require Import base option list strings gmap pretty.
From Equations Require Import Equations.

Local Open Scope Z_scope.

(** ** Python results: a value, or a raised exception *)

Inductive exn :=
  | ImportError | ModuleNotFoundError
  | FileNotFoundError | TimeoutExpired | ValueError
  | OSError | RuntimeError | OverflowError.

Inductive py_result (A : Type) :=
  | Ok (a : A)
  | Raise (e : exn).
Arguments Ok {A} a.
Arguments Raise {A} e.

(** [except ImportError] catches the class and its subclass
    [ModuleNotFoundError]; [except Exception] catches every [exn]. *)
Definition is_ImportError (e : exn) : bool :=
  match e with
  | ImportError | ModuleNotFoundError => true
  | _ => false
  end.

(** ** manage.py: hardware detection and derived parameters *)

Module Manage.

(** What the three probes of [detect_hardware] can observe.
    [nvidia_smi] is the value of
    [int(result.stdout.strip().split('\n')[0])], in MB, or the exception
    raised by [subprocess.run] or by [int];
    [psutil_available] is [psutil.virtual_memory().available], in bytes, or
    the exception raised by [import psutil] or by the query;
    [cpu_count] is [os.cpu_count()]. *)
Record probes := {
  nvidia_smi : py_result Z;
  psutil_available : py_result Z;
  cpu_count : option Z
}.

(** The [config] / [hw] dict: three keys, each of which may be absent.
    Numbers are exact rationals; the floats of the source are quotients of
    integers by powers of two. *)
Record hw := {
  gpu_vram_gb : option Q;
  ram_gb : option Q;
  cpu_cores : option Z
}.

(** [x or d] on an optional integer: [None] and [0] are falsy. *)
Definition py_or (x : option Z) (d : Z) : Z :=
  match x with
  | Some n => if Z.eqb n 0 then d else n
  | None => d
  end.

Definition detect_hardware (p : probes) : py_result hw :=
  let vram :=
    match nvidia_smi p with
    | Ok vram_mb => (inject_Z vram_mb / 1024)%Q
    | Raise _ => 0%Q                       (* except Exception *)
    end in
  match
    match psutil_available p with
    | Ok avail => Ok (inject_Z avail / inject_Z (1024 ^ 3))%Q
    | Raise e => if is_ImportError e then Ok 8%Q else Raise e
    end
  with
  | Raise e => Raise e
  | Ok ram =>
      Ok {| gpu_vram_gb := Some vram;
            ram_gb := Some ram;
            cpu_cores := Some (py_or (cpu_count p) 4) |}
  end.

(** [int(x)] on a float truncates towards zero. *)
Definition py_int (x : Q) : Z :=
  if Qle_bool 0 x then Qfloor x else Qceiling x.

Record params := {
  det_batch : Z;
  rec_batch : Z;
  prefetch : Z;
  workers : Z
}.

(** The tier of batch sizes chosen from the VRAM. *)
Definition batch_sizes (vram : Q) : Z * Z :=
  if Qle_bool vram 4 then (1, 8)
  else if Qle_bool vram 6 then (2, 16)
  else if Qle_bool vram 8 then (3, 24)
  else (4, 32).

(** The numbers computed by [calculate_optimal_params]; [//] is floor
    division, which [Z.div] is for a positive divisor. *)
Definition optimal_params (h : hw) : params :=
  let vram := default 6%Q (gpu_vram_gb h) in
  let ram := default 8%Q (ram_gb h) in
  let cores := default 8 (cpu_cores h) in
  let '(det, rec) := batch_sizes vram in
  {| det_batch := det;
     rec_batch := rec;
     prefetch := Z.max 4 (Z.min (py_int (ram / (1 # 2))%Q) 16);
     workers := Z.max 2 (Z.min (cores / 2) 6) |}.

(** The returned dict of environment settings, each number through [str]. *)
Definition calculate_optimal_params (h : hw) : gmap string string :=
  let p := optimal_params h in
  <["EXAMPAPER_DET_BATCH_SIZE" := pretty (det_batch p)]>
  (<["EXAMPAPER_REC_BATCH_SIZE" := pretty (rec_batch p)]>
  (<["EXAMPAPER_PREFETCH_SIZE" := pretty (prefetch p)]>
  (<["EXAMPAPER_MAX_WORKERS" := pretty (workers p)]> ∅))).

(** [clamp x lo hi] as the specification writes it. *)
Definition clamp (x lo hi : Z) : Z := Z.max lo (Z.min x hi).

(** ** The out-of-memory fallback [safe_predict] *)

(** The exception of a failed [pipeline.predict]: whether its class is
    [RuntimeError] (or a subclass), and its message. *)
Record predict_error := {
  is_runtime_error : bool;
  message : string
}.

Inductive predict_outcome (R : Type) :=
  | Predicted (r : R)
  | PredictFailed (e : predict_error).
Arguments Predicted {R} r.
Arguments PredictFailed {R} e.

(** How a call of [safe_predict] ends: with a result, with the exception
    of a [predict], or with one raised while the memory is released
    ([import paddle], [empty_cache], [logger.warning]). *)
Inductive safe_outcome (R : Type) :=
  | SafeResult (r : R)
  | SafeRaised (e : predict_error)
  | SafeCleanupRaised (e : exn).
Arguments SafeResult {R} r.
Arguments SafeRaised {R} e.
Arguments SafeCleanupRaised {R} e.

Section SafePredict.

Context {R : Type}.

(** ["out of memory" in str(e).lower()], on the message. *)
Variable mentions_oom : string → bool.

(** [first] and [second] are what the first and the second call of
    [pipeline.predict] do, [cleanup] what releasing the memory does. The
    result is the outcome, [os.environ] afterwards, and the number of
    calls of [predict]. *)
Definition safe_predict (environ : gmap string string)
    (first : predict_outcome R) (cleanup : py_result unit)
    (second : predict_outcome R)
  : safe_outcome R * gmap string string * nat :=
  match first with
  | Predicted r => (SafeResult r, environ, 1%nat)
  | PredictFailed e =>
      if is_runtime_error e && mentions_oom (message e) then
        match cleanup with
        | Raise x => (SafeCleanupRaised x, environ, 1%nat)
        | Ok _ =>
            let environ' :=
              <["EXAMPAPER_REC_BATCH_SIZE" := "4"]>
                (<["EXAMPAPER_DET_BATCH_SIZE" := "1"]> environ) in
            (match second with
             | Predicted r => SafeResult r
             | PredictFailed e2 => SafeRaised e2
             end, environ', 2%nat)
        end
      else (SafeRaised e, environ, 1%nat)
  end.

End SafePredict.

End Manage.

(** ** hybrid_pipeline.py: the GPU + CPU scheduler *)

Module Hybrid.

Inductive device := Gpu | Cpu.

(** The three places where [acquire] yields: line 72 after the
    non-blocking GPU acquisition, line 84 after the CPU acquisition,
    line 92 after the blocking GPU acquisition. *)
Inductive tier := Tier1 | Tier2 | Tier3.

Definition device_of (t : tier) : device :=
  match t with
  | Tier1 | Tier3 => Gpu
  | Tier2 => Cpu
  end.


(** A Python [float]: a number, an infinity or not-a-number ([float]
    accepts ['inf'] and ['nan']). *)
Inductive pyfloat := Finite (q : Q) | PosInf | NegInf | NaN.

Section Manager.

(** The PP-Structure pipeline objects are opaque here. *)
Context {pipeline : Type}.

(** [int(...)] and [float(...)] on strings, [None] for [ValueError]. *)
Variable int_of_string : string → option Z.
Variable float_of_string : string → option pyfloat.

(** [threading.TIMEOUT_MAX]: a lock refuses a longer timeout. *)
Variable TIMEOUT_MAX : Q.

(** [os.environ]. *)
Variable environ : gmap string string.

(** [int(os.getenv("EXAMPAPER_CPU_OCR_SLOTS", "2"))]. *)
Definition cpu_ocr_slots : option Z :=
  match environ !! "EXAMPAPER_CPU_OCR_SLOTS" with
  | None => Some 2
  | Some s => int_of_string s
  end.

(** [float(os.getenv("EXAMPAPER_CPU_FALLBACK_TIMEOUT", "0.1"))]. *)
Definition cpu_fallback_timeout : option pyfloat :=
  match environ !! "EXAMPAPER_CPU_FALLBACK_TIMEOUT" with
  | None => Some (Finite (1 # 10))
  | Some s => float_of_string s
  end.

(** [Semaphore.acquire(blocking=True, timeout=t)] with the counter at
    zero hands [t] to [Condition.wait], which waits on its lock with
    [acquire(True, t)] when [t > 0]: that call raises [OverflowError] for
    a timeout above [TIMEOUT_MAX]. *)
Definition too_long (t : pyfloat) : bool :=
  match t with
  | Finite q => negb (Qle_bool q 0) && negb (Qle_bool q TIMEOUT_MAX)
  | PosInf => true
  | NegInf | NaN => false
  end.

(** The bounded wait can end without a permit: at once for a timeout that
    is not positive, for which [Condition.wait] only tries its lock, and
    after a positive timeout that the lock accepts. It cannot for [nan]:
    neither [timeout > 0] nor [timeout <= 0] holds, so the loop of
    [Semaphore.acquire] never waits and never breaks, and polls the
    counter again. *)
Definition expires (t : pyfloat) : bool :=
  match t with
  | Finite q => Qle_bool q 0 || Qle_bool q TIMEOUT_MAX
  | NegInf => true
  | PosInf | NaN => false
  end.

(** The manager object; a [threading.Semaphore] is its counter. *)
Record manager := {
  gpu_pipeline : option pipeline;
  cpu_pipeline : option pipeline;
  gpu_sem : nat;
  cpu_sem : nat
}.

(** [__init__]; [Semaphore(v)] raises [ValueError] for [v < 0]. *)
Definition init : py_result manager :=
  match cpu_ocr_slots with
  | None => Raise ValueError
  | Some n =>
      if n <? 0 then Raise ValueError
      else Ok {| gpu_pipeline := None; cpu_pipeline := None;
                 gpu_sem := 1; cpu_sem := Z.to_nat n |}
  end.

Definition sem (d : device) (m : manager) : nat :=
  match d with
  | Gpu => gpu_sem m
  | Cpu => cpu_sem m
  end.

Definition set_sem (d : device) (v : nat) (m : manager) : manager :=
  match d with
  | Gpu => {| gpu_pipeline := gpu_pipeline m; cpu_pipeline := cpu_pipeline m;
              gpu_sem := v; cpu_sem := cpu_sem m |}
  | Cpu => {| gpu_pipeline := gpu_pipeline m; cpu_pipeline := cpu_pipeline m;
              gpu_sem := gpu_sem m; cpu_sem := v |}
  end.

Definition set_cpu_pipeline (p : option pipeline) (m : manager) : manager :=
  {| gpu_pipeline := gpu_pipeline m; cpu_pipeline := p;
     gpu_sem := gpu_sem m; cpu_sem := cpu_sem m |}.

(** [Semaphore.acquire] once the counter is positive; [None] when the
    counter is zero (a blocking caller waits, a non-blocking one gets
    [False]). *)
Definition try_acquire (d : device) (m : manager) : option manager :=
  match sem d m with
  | S v => Some (set_sem d v m)
  | O => None
  end.

(** [Semaphore.release]. *)
Definition release (d : device) (m : manager) : manager :=
  set_sem d (S (sem d m)) m.

(** Where one thread stands in a call of [acquire]. *)
Inductive pc :=
  | AtEntry                              (* line 70 *)
  | AtCpuAcquire (timeout : pyfloat)     (* line 79 *)
  | AtEnsureCpu                          (* line 98, CPU permit held *)
  | AtCreateCpu                          (* line 99 *)
  | AtEnsureReturn                       (* line 100 *)
  | AtLog (pipe : option pipeline)       (* lines 82-83 *)
  | AtGpuBlocking                        (* line 90 *)
  | InBody (t : tier) (pipe : option pipeline)   (* suspended at a yield *)
  | Returned (r : py_result unit).       (* the with statement is left *)

(** What the scheduler and the surroundings decide at a step. *)
Inductive choice :=
  | Go                                   (* run the next statement *)
  | TimedOut                             (* the bounded wait expires *)
  | Created (r : py_result pipeline)     (* _create_ppstructure(device="cpu") *)
  | Logged (r : py_result unit)          (* log_fn(...) *)
  | BodyDone (r : py_result unit).       (* the body of the with statement *)

(** One step of one thread through [acquire] (with the statements of
    [_ensure_cpu_pipeline] in line). [None]: the step is not enabled (the
    thread is blocked, or the choice does not fit the statement). At
    [AtLog], [Go] is the case of a falsy [log_fn]. A bounded wait gives up
    only when the counter is zero at that moment; with the counter at zero
    it raises at once for a timeout that is too long, and polls on for
    [nan]. The exception leaves [acquire] before any lock is held. *)
Definition acquire_step (m : manager) (p : pc) (c : choice)
  : option (manager * pc) :=
  match p, c with
  | AtEntry, Go =>
      match try_acquire Gpu m with
      | Some m' => Some (m', InBody Tier1 (gpu_pipeline m'))
      | None =>
          match cpu_fallback_timeout with
          | Some t => Some (m, AtCpuAcquire t)
          | None => Some (m, Returned (Raise ValueError))
          end
      end
  | AtCpuAcquire t, Go =>
      match try_acquire Cpu m with
      | Some m' => Some (m', AtEnsureCpu)
      | None =>
          if too_long t then Some (m, Returned (Raise OverflowError))
          else
            match t with
            | NaN => Some (m, AtCpuAcquire t)
            | _ => None
            end
      end
  | AtCpuAcquire t, TimedOut =>
      match try_acquire Cpu m with
      | Some _ => None
      | None => if expires t then Some (m, AtGpuBlocking) else None
      end
  | AtEnsureCpu, Go =>
      match cpu_pipeline m with
      | None => Some (m, AtCreateCpu)
      | Some _ => Some (m, AtEnsureReturn)
      end
  | AtCreateCpu, Created (Ok p) =>
      Some (set_cpu_pipeline (Some p) m, AtEnsureReturn)
  | AtCreateCpu, Created (Raise e) =>
      Some (release Cpu m, Returned (Raise e))
  | AtEnsureReturn, Go => Some (m, AtLog (cpu_pipeline m))
  | AtLog pipe, Go => Some (m, InBody Tier2 pipe)
  | AtLog pipe, Logged (Ok _) => Some (m, InBody Tier2 pipe)
  | AtLog _, Logged (Raise e) => Some (release Cpu m, Returned (Raise e))
  | AtGpuBlocking, Go =>
      match try_acquire Gpu m with
      | Some m' => Some (m', InBody Tier3 (gpu_pipeline m'))
      | None => None
      end
  | InBody t _, BodyDone r => Some (release (device_of t) m, Returned r)
  | Returned _, Go => Some (m, AtEntry)          (* the next call *)
  | _, _ => None
  end.

(** The whole process: the shared manager and the threads using it. *)
Record state := {
  mgr : manager;
  threads : list pc
}.

Definition step (s : state) (i : nat) (c : choice) : option state :=
  p ← threads s !! i;
  '(m', p') ← acquire_step (mgr s) p c;
  Some {| mgr := m'; threads := <[i := p']> (threads s) |}.

(** A schedule: which thread moves, and how. *)
Fixpoint run (s : state) (sched : list (nat * choice)) : option state :=
  match sched with
  | [] => Some s
  | (i, c) :: rest => s' ← step s i c; run s' rest
  end.

(** After [__init__] and the eager load of the GPU pipeline (which may
    still be pending: [g = None]), [n] threads are about to call
    [acquire]. *)
Definition initial (m : manager) (g : option pipeline) (n : nat) : state :=
  {| mgr := {| gpu_pipeline := g; cpu_pipeline := cpu_pipeline m;
               gpu_sem := gpu_sem m; cpu_sem := cpu_sem m |};
     threads := replicate n AtEntry |}.

(** The thread is between the acquisition of [d]'s lock and its release. *)
Definition in_scope (d : device) (p : pc) : bool :=
  match p, d with
  | InBody Tier1 _, Gpu | InBody Tier3 _, Gpu => true
  | InBody Tier2 _, Cpu => true
  | AtEnsureCpu, Cpu | AtCreateCpu, Cpu | AtEnsureReturn, Cpu
  | AtLog _, Cpu => true
  | _, _ => false
  end.

(** The thread is inside the with body, running against [d]'s pipeline. *)
Definition in_body (d : device) (p : pc) : bool :=
  match p, d with
  | InBody Tier1 _, Gpu | InBody Tier3 _, Gpu => true
  | InBody Tier2 _, Cpu => true
  | _, _ => false
  end.


(** The thread is not inside a call: about to call, or back from one. *)
Definition outside_call (p : pc) : bool :=
  match p with
  | AtEntry | Returned _ => true
  | _ => false
  end.


Definition count (f : pc → bool) (l : list pc) : nat := length (filter f l).

Definition b2n (b : bool) : nat := if b then 1%nat else 0%nat.

(** One thread running on its own, the manager untouched by others. *)
Fixpoint acquire_run (m : manager) (p : pc) (cs : list choice)
  : option (manager * pc) :=
  match cs with
  | [] => Some (m, p)
  | c :: cs' => '(m', p') ← acquire_step m p c; acquire_run m' p' cs'
  end.

End Manager.

End Hybrid.

(** ** parallel_extraction.py: the page worker pool *)

Module PageWorkerPool.

Section Pool.

Context {PageInput PageResult : Type}.

(** The outcome of the routed inference on one page: its result, or the
    error captured for that page. *)
Variable infer : PageInput → PageResult.

(** Modelled from the spec: the tagging step of
    [PageWorkerPool.process_pages] (the body of parallel_extraction.py is
    not part of the sources at hand). Each page becomes a unit tagged with
    its original index. *)
Definition tag_units (pages : list PageInput) : list (nat * PageInput) :=
  imap (λ i p, (i, p)) pages.

(** Modelled from the spec: a consumer of [PageWorkerPool] (absent from
    the sources) turns a unit into the result of its page, the tag kept. *)
Definition consume (u : nat * PageInput) : nat * PageResult :=
  (u.1, infer u.2).

(** Modelled from the spec: the collection step of
    [PageWorkerPool.process_pages] (absent from the sources). Every
    finished unit is stored under its tag, in the order of completion. *)
Definition collect (n : nat) (finished : list (nat * PageResult))
  : list (option PageResult) :=
  foldl (λ slots u, <[u.1 := Some u.2]> slots) (replicate n None) finished.

(** Modelled from the spec: [PageWorkerPool.process_pages] (absent from
    the sources). [completion] is the order in which the consumers finish
    the units; the slots are returned in index order. [None]: some slot
    was never filled. *)
Definition process_pages (pages : list PageInput)
    (completion : list (nat * PageInput)) : option (list PageResult) :=
  mapM id (collect (length pages) (consume <$> completion)).

End Pool.

End PageWorkerPool.

(** ** JavaScript results: a value, or a thrown error *)

Inductive js_error := TypeError | SyntaxError | NetworkError.

Inductive js_result (A : Type) :=
  | Return (a : A)
  | Throw (e : js_error).
Arguments Return {A} a.
Arguments Throw {A} e.

(** [xs[i]] for a number [i]: [undefined] outside the array. *)
Definition js_index {A} (xs : list A) (i : Z) : option A :=
  if i <? 0 then None else xs !! Z.to_nat i.

(** ** useTaskStore.ts: the task store *)

Module TaskStore.

Inductive TaskMode := auto | manual.

Inductive TaskStatus :=
  | idle | uploading | processing | paused | task_completed | error_.

Inductive StepStatus := pending | running | completed | failed | skipped.

Record Step := {
  index : Z;
  name : string;
  title : string;
  desc : string;
  icon : string;
  status : StepStatus;
  error : option string;
  artifact_count : Z;
  progress : option Q;
  progress_text : option string
}.

(** The refs of the store that the modelled actions read or write. *)
Record store := {
  taskId : option string;
  task_status : TaskStatus;
  mode : TaskMode;
  steps : list Step
}.

(** An entry of [response.data.steps]. *)
Record RespStep := {
  rs_status : StepStatus;
  rs_artifact_count : option Z
}.

(** What the actions do besides writing the store, in order. *)
Inductive effect :=
  | ApiRestartFromStep (task : string) (stepIndex : Z)
  | ApiStartStep (task : string) (stepIndex : Z) (runToEnd : bool)
  | ConnectEventSource (task : string)
  | LogStart (runToEnd : bool) (title : string)
  | LogStartFailed
  | LogReset (message : option string) (stepIndex : Z)
  | LogResetFailed.

Definition with_status (s : Step) (st : StepStatus) : Step :=
  {| index := index s; name := name s; title := title s; desc := desc s;
     icon := icon s; status := st; error := error s;
     artifact_count := artifact_count s; progress := progress s;
     progress_text := progress_text s |}.

Definition with_steps (s : store) (l : list Step) : store :=
  {| taskId := taskId s; task_status := task_status s; mode := mode s;
     steps := l |}.

Definition with_task_status (s : store) (t : TaskStatus) : store :=
  {| taskId := taskId s; task_status := t; mode := mode s;
     steps := steps s |}.

(** [!taskId.value]: [null] and the empty string are falsy. *)
Definition task_of (s : store) : option string :=
  match taskId s with
  | Some t => if String.eqb t "" then None else Some t
  | None => None
  end.

(** [isBusy]. *)
Definition isBusy (s : store) : bool :=
  match task_status s with
  | uploading | processing => true
  | _ => false
  end.

Definition is_running (x : Step) : bool :=
  match status x with running => true | _ => false end.

Definition is_pending (x : Step) : bool :=
  match status x with pending => true | _ => false end.

Definition is_completed (x : Step) : bool :=
  match status x with completed => true | _ => false end.

(** [canStartStep]; reading [.status] of an absent previous step throws. *)
Definition canStartStep (s : store) (step : Step) : js_result bool :=
  if isBusy s then Return false
  else if negb (is_pending step) then Return false
  else if existsb is_running (steps s) then Return false
  else
    match mode s with
    | manual => Return true
    | auto =>
        if 0 <? index step then
          match js_index (steps s) (index step - 1) with
          | None => Throw TypeError
          | Some prevStep =>
              if negb (is_completed prevStep) then Return false
              else Return true
          end
        else Return true
    end.

(** [steps.value[i].status = st]; throws when the step is absent. *)
Definition set_step_status (l : list Step) (i : Z) (st : StepStatus)
  : js_result (list Step) :=
  match js_index l i with
  | None => Throw TypeError
  | Some x => Return (<[Z.to_nat i := with_status x st]> l)
  end.

(** [startStep]; [api_start] is how [api.startStep] settles. The result
    is the store, the effects, and whether the action threw. *)
Definition startStep (s : store) (stepIndex : Z) (runToEnd : bool)
    (api_start : js_result unit) : store * list effect * js_result unit :=
  match task_of s with
  | None => (s, [], Return tt)
  | Some t =>
      let s1 := with_task_status s processing in
      match set_step_status (steps s1) stepIndex running with
      | Throw e => (s1, [], Throw e)
      | Return l =>
          let s2 := with_steps s1 l in
          let title_ := default "" (title <$> js_index l stepIndex) in
          let log := [LogStart runToEnd title_;
                      ApiStartStep t stepIndex runToEnd] in
          match api_start with
          | Return _ => (s2, log ++ [ConnectEventSource t], Return tt)
          | Throw _ =>
              match set_step_status (steps s2) stepIndex failed with
              | Throw e => (s2, log ++ [LogStartFailed], Throw e)
              | Return l' =>
                  (with_task_status (with_steps s2 l') paused,
                   log ++ [LogStartFailed], Return tt)
              end
          end
      end
  end.

(** The body of the [forEach] in [restartFromStep]. *)
Definition reset_step (x : Step) (r : RespStep) : Step :=
  {| index := index x; name := name x; title := title x; desc := desc x;
     icon := icon x; status := rs_status r; error := None;
     artifact_count := 0; progress := None; progress_text := None |}.

Definition apply_reset (l : list Step) (resp : list RespStep) : list Step :=
  foldl (λ acc ir,
           match acc !! ir.1 with
           | Some x => <[ir.1 := reset_step x ir.2]> acc
           | None => acc
           end)
        l (imap (λ idx r, (idx, r)) resp).

(** The body of the [forEach] in [uploadFile]; [x || 0] on a count. *)
Definition upload_step (x : Step) (r : RespStep) : Step :=
  {| index := index x; name := name x; title := title x; desc := desc x;
     icon := icon x; status := rs_status r; error := error x;
     artifact_count := default 0 (rs_artifact_count r);
     progress := progress x; progress_text := progress_text x |}.

Definition apply_upload (l : list Step) (resp : list RespStep) : list Step :=
  foldl (λ acc ir,
           match acc !! ir.1 with
           | Some x => <[ir.1 := upload_step x ir.2]> acc
           | None => acc
           end)
        l (imap (λ idx r, (idx, r)) resp).

(** The payload of a resolved [api.restartFromStep]. *)
Record RestartResponse := {
  resp_steps : option (list RespStep);
  resp_message : option string
}.

(** [restartFromStep]; every error inside the [try] ends in the log. *)
Definition restartFromStep (s : store) (stepIndex : Z)
    (api_restart : js_result RestartResponse) (api_start : js_result unit)
  : store * list effect :=
  match task_of s with
  | None => (s, [])
  | Some t =>
      match api_restart with
      | Throw _ => (s, [ApiRestartFromStep t stepIndex; LogResetFailed])
      | Return response =>
          let s1 :=
            match resp_steps response with
            | Some rs => with_steps s (apply_reset (steps s) rs)
            | None => s
            end in
          let fx := [ApiRestartFromStep t stepIndex;
                     LogReset (resp_message response) stepIndex] in
          match mode s1 with
          | manual =>
              let '(s2, fx2, r) := startStep s1 stepIndex false api_start in
              match r with
              | Return _ => (s2, fx ++ fx2)
              | Throw _ => (s2, fx ++ fx2 ++ [LogResetFailed])
              end
          | auto => (s1, fx)
          end
      end
  end.

(** [createDefaultSteps]. *)
Definition default_step (i : Z) (n t d ic : string) : Step :=
  {| index := i; name := n; title := t; desc := d; icon := ic;
     status := pending; error := None; artifact_count := 0;
     progress := None; progress_text := None |}.

Definition createDefaultSteps : list Step :=
  [ default_step 0 "pdf_to_images" "PDF 转图片"
      "将 PDF 每一页转换为高分辨率图像" "ph-file-image";
    default_step 1 "extract_questions" "OCR 识别"
      "使用 PP-StructureV3 识别版面结构并缓存" "ph-scan";
    default_step 2 "analyze_data" "结构检测"
      "分析题目边界，检测资料分析区域" "ph-tree-structure";
    default_step 3 "compose_long_image" "裁剪拼接"
      "裁剪题目图片，跨页内容智能拼接" "ph-scissors";
    default_step 4 "collect_results" "结果汇总"
      "验证输出完整性，生成汇总信息" "ph-package" ].

(** An entry of a step snapshot: [data.steps] of a 'step' event or of a
    status poll. *)
Record StepData := {
  sd_status : StepStatus;
  sd_error : option string;
  sd_artifact_count : option Z;
  sd_progress : option Q;
  sd_progress_text : option string
}.

(** [x || null] on an optional string: the empty string is falsy too. *)
Definition or_null (x : option string) : option string :=
  match x with
  | Some e => if String.eqb e "" then None else Some e
  | None => None
  end.

(** The body of the [forEach] in [updateSteps]. *)
Definition update_step (x : Step) (d : StepData) : Step :=
  {| index := index x; name := name x; title := title x; desc := desc x;
     icon := icon x; status := sd_status d; error := or_null (sd_error d);
     artifact_count := default 0 (sd_artifact_count d);
     progress := sd_progress d; progress_text := sd_progress_text d |}.

Definition updateSteps (l : list Step) (stepsData : list StepData)
  : list Step :=
  foldl (λ acc id,
           match acc !! id.1 with
           | Some x => <[id.1 := update_step x id.2]> acc
           | None => acc
           end)
        l (imap (λ idx d, (idx, d)) stepsData).

(** [xs.findIndex(f)], [-1] when no element passes. *)
Fixpoint findIndex {A} (f : A → bool) (xs : list A) : Z :=
  match xs with
  | [] => -1
  | x :: xs' =>
      if f x then 0
      else let r := findIndex f xs' in if r <? 0 then -1 else r + 1
  end.

(** [currentStepIndex]. *)
Definition currentStepIndex (s : store) : Z := findIndex is_running (steps s).

(** What one step adds to the sum of [progressPercent]. In exact
    arithmetic; a [progress] that is not a number counts as absent. *)
Definition progress_share (x : Step) : Q :=
  match status x with
  | completed | skipped => 1
  | running =>
      match progress x with
      | Some p => Qmin 1 (Qmax 0 p)
      | None => 1 # 10
      end
  | failed => 1 # 2
  | pending => 0
  end%Q.

(** [progressPercent]. *)
Definition progressPercent (s : store) : Q :=
  match steps s with
  | [] => 0
  | _ =>
      (foldl (λ acc x, acc + progress_share x) 0 (steps s)
       / inject_Z (Z.of_nat (length (steps s))) * 100)
  end%Q.

(** What the handlers of the connection do besides writing the store. *)
Inductive notice :=
  | StopPolling
  | StartPolling (task : string)
  | LoadResults (task : string)
  | LogStepDone
  | LogAllDone
  | LogFailed (error : option string).

(** [createPollingHandlers().onStatus]: [data.steps] and [data.status]
    of a status poll. *)
Definition onStatus (s : store) (data_steps : option (list StepData))
    (data_status : string) : store * list notice :=
  let s1 :=
    match data_steps with
    | Some d => with_steps s (updateSteps (steps s) d)
    | None => s
    end in
  if String.eqb data_status "pending" then
    match mode s1 with
    | manual =>
        if existsb is_running (steps s1) then (s1, [])
        else (with_task_status s1 paused, [StopPolling; LogStepDone])
    | auto => (s1, [])
    end
  else (s1, []).

(** [createConnectionHandlers().onDone]. *)
Definition onDone (s : store) (doneStatus : string) : store * list notice :=
  if String.eqb doneStatus "completed" then
    (with_task_status s task_completed,
     LogAllDone :: match task_of s with
                   | Some t => [LoadResults t]
                   | None => []
                   end)
  else (with_task_status s error_, [LogFailed None]).

(** [reset], on the refs of this store. *)
Definition reset (s : store) : store :=
  {| taskId := None; task_status := idle; mode := mode s;
     steps := createDefaultSteps |}.

(** The payload of a resolved [api.upload]. *)
Record UploadResponse := {
  up_task_id : string;
  up_steps : option (list RespStep)
}.

(** What [uploadFile] does besides writing the store. *)
Inductive upload_effect :=
  | LogUploading
  | LogUploaded
  | LogManual
  | LogUploadFailed
  | LogProcessing
  | LogProcessFailed
  | ApiUpload (selectedMode : TaskMode)
  | ApiStartProcess (task : string)
  | Connect (task : string)
  | Poll (task : string).

Definition with_taskId (s : store) (t : option string) : store :=
  {| taskId := t; task_status := task_status s; mode := mode s;
     steps := steps s |}.

Definition with_mode (s : store) (m : TaskMode) : store :=
  {| taskId := taskId s; task_status := task_status s; mode := m;
     steps := steps s |}.

(** [startProcessing]; [startPolling] does nothing without a task id. *)
Definition startProcessing (s : store) (api_process : js_result unit)
  : store * list upload_effect :=
  match task_of s with
  | None => (s, [])
  | Some t =>
      (with_task_status s processing,
       [LogProcessing; ApiStartProcess t]
       ++ match api_process with
          | Return _ => [Connect t]
          | Throw _ => [LogProcessFailed; Poll t]
          end)
  end.

(** [uploadFile]. *)
Definition uploadFile (s : store) (selectedMode : TaskMode)
    (api_upload : js_result UploadResponse) (api_process : js_result unit)
  : store * list upload_effect :=
  let s1 := with_mode (with_task_status s uploading) selectedMode in
  match api_upload with
  | Throw _ =>
      (with_task_status s1 error_,
       [LogUploading; ApiUpload selectedMode; LogUploadFailed])
  | Return response =>
      let s2 := with_taskId s1 (Some (up_task_id response)) in
      let s3 :=
        match up_steps response with
        | Some rs => with_steps s2 (apply_upload (steps s2) rs)
        | None => s2
        end in
      let fx := [LogUploading; ApiUpload selectedMode; LogUploaded] in
      match selectedMode with
      | auto =>
          let '(s4, fx') := startProcessing s3 api_process in (s4, fx ++ fx')
      | manual => (with_task_status s3 paused, fx ++ [LogManual])
      end
  end.

End TaskStore.

(** ** The SSE reader [readSseJson] *)

Module Sse.

(** A JavaScript string: its UTF-16 code units. *)
Abbreviation jsstring := (list N).

Definition LF : N := 10.
Definition CR : N := 13.

(** The literal ['data:']. *)
Definition data_prefix : jsstring := [100; 97; 116; 97; 58]%N.

(** The literal ['\n\n']. *)
Definition boundary : jsstring := [LF; LF].

(** White space and line terminators, as [trim] and [trimStart] see them. *)
Definition is_space (c : N) : bool :=
  ((9 <=? c) && (c <=? 13) || (c =? 32) || (c =? 160) || (c =? 5760)
   || (8192 <=? c) && (c <=? 8202) || (c =? 8232) || (c =? 8233)
   || (c =? 8239) || (c =? 8287) || (c =? 12288) || (c =? 65279))%N.

Fixpoint trimStart (s : jsstring) : jsstring :=
  match s with
  | c :: s' => if is_space c then trimStart s' else s
  | [] => []
  end.

Definition trimEnd (s : jsstring) : jsstring :=
  reverse (trimStart (reverse s)).

Definition trim (s : jsstring) : jsstring := trimEnd (trimStart s).

(** [s.startsWith(p)]. *)
Fixpoint startsWith (p s : jsstring) : bool :=
  match p, s with
  | [], _ => true
  | a :: p', b :: s' => (a =? b)%N && startsWith p' s'
  | _ :: _, [] => false
  end.

(** [s.split('\n')]: never empty, [['']] for the empty string. *)
Fixpoint split_lines (s : jsstring) : list jsstring :=
  match s with
  | [] => [[]]
  | c :: s' =>
      if (c =? LF)%N then [] :: split_lines s'
      else
        match split_lines s' with
        | l :: ls => (c :: l) :: ls
        | [] => [[c]]
        end
  end.

(** [lines.join('\n')]. *)
Fixpoint join_lines (ls : list jsstring) : jsstring :=
  match ls with
  | [] => []
  | [l] => l
  | l :: ls' => l ++ LF :: join_lines ls'
  end.

(** [s.indexOf(p)], [None] for [-1]. *)
Fixpoint indexOf (p s : jsstring) : option nat :=
  if startsWith p s then Some 0%nat
  else
    match s with
    | [] => None
    | _ :: s' => S <$> indexOf p s'
    end.

(** [s.replace(/\r/g, '')]. *)
Definition remove_cr (s : jsstring) : jsstring :=
  filter (λ c, c ≠ CR) s.

Definition extractData (rawEvent : jsstring) : jsstring :=
  let dataLines := filter (λ l, startsWith data_prefix l = true)
                          (split_lines rawEvent) in
  match dataLines with
  | [] => []
  | _ => trim (join_lines ((λ l, trimStart (drop 5 l)) <$> dataLines))
  end.

(** One event as a sender frames it: ['data: '], the payload, and the
    blank line. *)
Definition frame (payload : jsstring) : jsstring :=
  data_prefix ++ 32%N :: payload ++ boundary.

(** A payload that survives the framing: not empty, on one line, and
    without white space at either end. *)
Definition one_line_payload (p : jsstring) : Prop :=
  p ≠ [] ∧ Forall (λ c, c ≠ LF ∧ c ≠ CR) p ∧ trim p = p.

(** How the stream ends: closed by the sender, or a failed read. *)
Inductive ending := Closed | Errored.

(** A [ReadableStream<Uint8Array>] as the reader sees it: whether it is
    already locked, the chunks its reads deliver, and how it ends. *)
Record stream := {
  locked : bool;
  chunks : list (list Byte.byte);
  end_of_stream : ending
}.

Section Reader.

(** The parsed payloads. *)
Context {T : Type}.

(** [JSON.parse], [None] when it throws a [SyntaxError]. *)
Variable JSON_parse : jsstring → option T.

(** The [TextDecoder]: [decode(value, { stream: true })] with the
    decoder's pending bytes as its state. *)
Context {decoder : Type}.
Variable decode : decoder → list Byte.byte → jsstring * decoder.
Variable new_decoder : decoder.

(** What one raw event contributes: nothing when it has no data, or when
    its data is not JSON ([try { yield JSON.parse(..) } catch {}]). *)
Definition emit (rawEvent : jsstring) : list T :=
  match extractData rawEvent with
  | [] => []
  | dataStr =>
      match JSON_parse dataStr with
      | Some v => [v]
      | None => []
      end
  end.

Lemma startsWith_length p s :
  startsWith p s = true → (length p ≤ length s)%nat.
Proof.
  revert s. induction p as [|a p IH]; intros [|b s]; simpl; try done; try lia.
  intros [_ E]%andb_true_iff. specialize (IH _ E). lia.
Qed.

Lemma indexOf_bound p s i :
  indexOf p s = Some i → (i + length p ≤ length s)%nat.
Proof.
  revert i. induction s as [|c s IH]; intros i.
  - simpl. destruct (startsWith p []) eqn:E; [|done].
    intros [= <-]. apply startsWith_length in E. simpl in *. lia.
  - cbn [indexOf]. destruct (startsWith p (c :: s)) eqn:E.
    + intros [= <-]. apply startsWith_length in E. lia.
    + destruct (indexOf p s) as [j|] eqn:Ej; [|done].
      intros [= <-]. specialize (IH _ eq_refl). simpl. lia.
Qed.

(** Keeps the equation of a [with] test for the termination proof. *)
Definition inspect {A : Type} (x : A) : {y : A | x = y} := exist _ x eq_refl.

(** The inner loop: cut the buffer at each ['\n\n'], collect what the
    events yield, and keep the rest as the new buffer. *)
Equations? drain (buffer : jsstring) : list T * jsstring
  by wf (length buffer) lt :=
drain buffer with inspect (indexOf boundary buffer) := {
  | exist _ None _ => ([], buffer)
  | exist _ (Some boundaryIndex) _ =>
      let rawEvent := take boundaryIndex buffer in
      let rest := drain (drop (boundaryIndex + 2) buffer) in
      (emit rawEvent ++ rest.1, rest.2)
}.
Proof.
  apply indexOf_bound in e. rewrite length_drop. simpl in e. lia.
Qed.

(** The outer loop over the reads: decode, append, drop carriage returns,
    drain. Returns what was yielded and the final buffer. *)
Fixpoint read_loop (d : decoder) (buffer : jsstring)
    (cs : list (list Byte.byte)) : list T * jsstring :=
  match cs with
  | [] => ([], buffer)
  | value :: cs' =>
      let '(text, d') := decode d value in
      let '(ys, buffer') := drain (remove_cr (buffer ++ text)) in
      let '(zs, final) := read_loop d' buffer' cs' in
      (ys ++ zs, final)
  end.

(** The generator, run to its end: the values it yields, and how it
    finishes. [getReader] throws on a locked stream; a failed read leaves
    through the [finally] block, whose own errors are swallowed, without
    the flush of the trailing buffer. *)
Definition readSseJson (st : stream) : list T * js_result unit :=
  if locked st then ([], Throw TypeError)
  else
    let '(ys, buffer) := read_loop new_decoder [] (chunks st) in
    match end_of_stream st with
    | Errored => (ys, Throw NetworkError)
    | Closed => (ys ++ emit buffer, Return tt)
    end.

(** The text that the decoder produces for the chunks, in order. *)
Fixpoint decoded (d : decoder) (cs : list (list Byte.byte)) : jsstring :=
  match cs with
  | [] => []
  | value :: cs' => let '(text, d') := decode d value in text ++ decoded d' cs'
  end.

(** The raw events of a whole text, as the comment of the source frames
    them: the pieces between successive blank lines, the last piece being
    the trailing one (like [text.split('\n\n')]). *)
Equations? split_events (text : jsstring) : list jsstring
  by wf (length text) lt :=
split_events text with inspect (indexOf boundary text) := {
  | exist _ None _ => [text]
  | exist _ (Some i) _ => take i text :: split_events (drop (i + 2) text)
}.
Proof.
  apply indexOf_bound in e. rewrite length_drop. simpl in e. lia.
Qed.

(** The events that are closed by a blank line: all but the last piece. *)
Definition complete_events (text : jsstring) : list jsstring :=
  removelast (split_events text).

End Reader.

End Sse.

(** ** useLogsStore.ts: the log store *)

Module LogsStore.

Record LogEntry := {
  id : string;
  time : string;
  message : string;
  type : string
}.

Definition MAX_LOGS : nat := 100.

Record store := {
  logs : list LogEntry;
  cursor : Z;
  seenIds : gset string
}.

(** The [while] loop of [addLog]: [shift] the oldest entry and forget its
    id, as long as the list is longer than [MAX_LOGS]. The loop runs at
    most once per entry, which is the fuel. *)
Fixpoint shift_excess (fuel : nat) (l : list LogEntry) (seen : gset string)
  : list LogEntry * gset string :=
  match fuel with
  | O => (l, seen)
  | S fuel' =>
      if (MAX_LOGS <? length l)%nat then
        match l with
        | removed :: rest => shift_excess fuel' rest (seen ∖ {[id removed]})
        | [] => (l, seen)
        end
      else (l, seen)
  end.

(** [addLog]; the id (from the clock and [Math.random]) and the time
    string are given with the entry. *)
Definition addLog (s : store) (entry : LogEntry) : store :=
  let pushed := logs s ++ [entry] in
  let '(l, seen) := shift_excess (length pushed) pushed (seenIds s) in
  {| logs := l; cursor := cursor s; seenIds := seen |}.

(** [appendLog]. *)
Definition appendLog (s : store) (log : LogEntry) : store :=
  if decide (id log ∈ seenIds s) then s
  else {| logs := logs s ++ [log]; cursor := cursor s;
          seenIds := {[id log]} ∪ seenIds s |}.

(** [appendLogs]. *)
Definition appendLogs (s : store) (newLogs : list LogEntry) : store :=
  foldl appendLog s newLogs.

(** [updateCursor]. *)
Definition updateCursor (s : store) (total : Z) : store :=
  {| logs := logs s; cursor := total; seenIds := seenIds s |}.

(** [reset]. *)
Definition reset (s : store) : store :=
  {| logs := []; cursor := 0; seenIds := ∅ |}.

(** The store as [defineStore] creates it. *)
Definition empty : store := {| logs := []; cursor := 0; seenIds := ∅ |}.

(** A use of the store from outside. *)
Inductive action :=
  | AddLog (entry : LogEntry)
  | AppendLog (log : LogEntry)
  | AppendLogs (newLogs : list LogEntry)
  | UpdateCursor (total : Z)
  | Reset.

Definition perform (s : store) (a : action) : store :=
  match a with
  | AddLog entry => addLog s entry
  | AppendLog log => appendLog s log
  | AppendLogs newLogs => appendLogs s newLogs
  | UpdateCursor total => updateCursor s total
  | Reset => reset s
  end.

End LogsStore.

(** ** useConnectionStore.ts: the SSE / polling connection *)

Module ConnectionStore.

Inductive ConnectionStatus :=
  | disconnected | connecting | connected | reconnecting.

Definition MAX_RETRIES : nat := 5.
Definition BASE_DELAY : Z := 1000.
Definition MAX_DELAY : Z := 30000.

(** The refs of the store. An [EventSource], an interval and a timeout
    are named by the value of [currentGen] in the call that made them,
    which their callbacks close over. [pendingRetry] is not a ref: it is
    the browser's side of [retryTimer], the timeout that has been set and
    has neither fired nor been cleared. *)
Record store := {
  eventSource : option nat;
  pollTimer : option nat;
  retryTimer : option nat;
  connectionStatus : ConnectionStatus;
  retryCount : nat;
  lastEventId : option string;
  generation : nat;
  pendingRetry : option nat
}.

(** The status payload of [api.getStatus], as far as it is read here. *)
Record StatusData := {
  sd_steps : option (list TaskStore.StepData);
  sd_logs : option (list LogsStore.LogEntry);
  sd_total_logs : Z;
  sd_status : string;
  sd_error : option string
}.

(** What a call or a callback does besides writing the refs. *)
Inductive effect :=
  | CloseEventSource (g : nat)
  | NewEventSource (url : string) (g : nat)
  | ClearTimeout (g : nat)
  | SetTimeout (delay : Z) (g : nat)
  | ClearInterval (g : nat)
  | SetInterval (g : nat)
  | GetStatus (task : string)
  | OnStep (steps : list TaskStore.StepData)
  | OnDone (data : string)
  | OnFallbackToPolling
  | OnStatus (data : StatusData)
  | OnComplete
  | OnError (error : string)
  | AppendLog (log : LogsStore.LogEntry)
  | AppendLogs (logs : list LogsStore.LogEntry)
  | UpdateCursor (total : Z).

(** What a stale callback must not do: call a handler of the caller, the
    log store or the API, or make a new connection or timer. *)
Definition is_delivery (e : effect) : bool :=
  match e with
  | OnStep _ | OnDone _ | OnFallbackToPolling | OnStatus _ | OnComplete
  | OnError _ | AppendLog _ | AppendLogs _ | UpdateCursor _
  | GetStatus _ | NewEventSource _ _ | SetTimeout _ _ | SetInterval _ => true
  | CloseEventSource _ | ClearTimeout _ | ClearInterval _ => false
  end.

(** [api.getStreamUrl]. *)
Definition getStreamUrl (taskId : string) (lastEventId : option string)
  : string :=
  let base := String.append "/api/stream/" taskId in
  match lastEventId with
  | Some i =>
      if String.eqb i "" then base
      else String.append base (String.append "?last_event_id=" i)
  | None => base
  end.

(** [getRetryDelayWithJitter], in exact arithmetic; [random] is the value
    of [Math.random()]. *)
Definition getRetryDelayWithJitter (s : store) (random : Q) : Z :=
  let baseDelay := Z.min (BASE_DELAY * 2 ^ Z.of_nat (retryCount s)) MAX_DELAY in
  Qfloor (inject_Z baseDelay + random * inject_Z baseDelay * (1 # 2))%Q.

Definition set_eventSource (s : store) (v : option nat) : store :=
  {| eventSource := v; pollTimer := pollTimer s; retryTimer := retryTimer s;
     connectionStatus := connectionStatus s; retryCount := retryCount s;
     lastEventId := lastEventId s; generation := generation s;
     pendingRetry := pendingRetry s |}.

Definition set_pollTimer (s : store) (v : option nat) : store :=
  {| eventSource := eventSource s; pollTimer := v; retryTimer := retryTimer s;
     connectionStatus := connectionStatus s; retryCount := retryCount s;
     lastEventId := lastEventId s; generation := generation s;
     pendingRetry := pendingRetry s |}.

Definition set_status (s : store) (v : ConnectionStatus) : store :=
  {| eventSource := eventSource s; pollTimer := pollTimer s;
     retryTimer := retryTimer s; connectionStatus := v;
     retryCount := retryCount s; lastEventId := lastEventId s;
     generation := generation s; pendingRetry := pendingRetry s |}.

Definition set_retryCount (s : store) (v : nat) : store :=
  {| eventSource := eventSource s; pollTimer := pollTimer s;
     retryTimer := retryTimer s; connectionStatus := connectionStatus s;
     retryCount := v; lastEventId := lastEventId s;
     generation := generation s; pendingRetry := pendingRetry s |}.

Definition set_lastEventId (s : store) (v : option string) : store :=
  {| eventSource := eventSource s; pollTimer := pollTimer s;
     retryTimer := retryTimer s; connectionStatus := connectionStatus s;
     retryCount := retryCount s; lastEventId := v;
     generation := generation s; pendingRetry := pendingRetry s |}.

(** [generation.value++]. *)
Definition bump (s : store) : store :=
  {| eventSource := eventSource s; pollTimer := pollTimer s;
     retryTimer := retryTimer s; connectionStatus := connectionStatus s;
     retryCount := retryCount s; lastEventId := lastEventId s;
     generation := S (generation s); pendingRetry := pendingRetry s |}.

(** [retryTimer.value = window.setTimeout(...)]. *)
Definition arm_retry (s : store) (g : nat) : store :=
  {| eventSource := eventSource s; pollTimer := pollTimer s;
     retryTimer := Some g; connectionStatus := connectionStatus s;
     retryCount := retryCount s; lastEventId := lastEventId s;
     generation := generation s; pendingRetry := Some g |}.

(** The timeout fires: it is no longer pending; the ref keeps its id. *)
Definition fired (s : store) : store :=
  {| eventSource := eventSource s; pollTimer := pollTimer s;
     retryTimer := retryTimer s; connectionStatus := connectionStatus s;
     retryCount := retryCount s; lastEventId := lastEventId s;
     generation := generation s; pendingRetry := None |}.

(** [clearRetryTimer]; clearing the timeout of the ref cancels it when it
    is the pending one. *)
Definition clearRetryTimer (s : store) : store * list effect :=
  match retryTimer s with
  | Some g =>
      ({| eventSource := eventSource s; pollTimer := pollTimer s;
          retryTimer := None; connectionStatus := connectionStatus s;
          retryCount := retryCount s; lastEventId := lastEventId s;
          generation := generation s;
          pendingRetry := if decide (pendingRetry s = Some g) then None
                          else pendingRetry s |},
       [ClearTimeout g])
  | None => (s, [])
  end.

(** [disconnectEventSourceInternal]. *)
Definition disconnectEventSourceInternal (s : store) : store * list effect :=
  match eventSource s with
  | Some g => (set_eventSource s None, [CloseEventSource g])
  | None => (s, [])
  end.

(** [stopPollingInternal]. *)
Definition stopPollingInternal (s : store) : store * list effect :=
  match pollTimer s with
  | Some g => (set_pollTimer s None, [ClearInterval g])
  | None => (s, [])
  end.

(** The three clean-up calls that open [connectEventSource] and
    [startPolling]. *)
Definition clean (s : store) : store * list effect :=
  let '(s1, fx1) := clearRetryTimer s in
  let '(s2, fx2) := disconnectEventSourceInternal s1 in
  let '(s3, fx3) := stopPollingInternal s2 in
  (s3, fx1 ++ fx2 ++ fx3).

(** [connectEventSource]. *)
Definition connectEventSource (s : store) (taskId : string)
  : store * list effect :=
  let s0 := bump s in
  let currentGen := generation s0 in
  let '(s1, fx) := clean s0 in
  let s2 := set_status s1 connecting in
  let url := getStreamUrl taskId (lastEventId s2) in
  (set_eventSource s2 (Some currentGen), fx ++ [NewEventSource url currentGen]).

(** [disconnectEventSource]. *)
Definition disconnectEventSource (s : store) : store * list effect :=
  let '(s1, fx1) := clearRetryTimer (bump s) in
  let '(s2, fx2) := disconnectEventSourceInternal s1 in
  (match connectionStatus s2 with
   | reconnecting => s2
   | _ => set_status s2 disconnected
   end, fx1 ++ fx2).

(** [startPolling], up to the creation of the interval. *)
Definition startPolling (s : store) : store * list effect :=
  let s0 := bump s in
  let currentGen := generation s0 in
  let '(s1, fx) := clean s0 in
  (set_pollTimer (set_status s1 connected) (Some currentGen),
   fx ++ [SetInterval currentGen]).

(** [stopPolling]. *)
Definition stopPolling (s : store) : store * list effect :=
  let '(s1, fx) := stopPollingInternal (bump s) in
  (set_status s1 disconnected, fx).

(** [reset]. *)
Definition reset (s : store) : store * list effect :=
  let '(s1, fx) := clean (bump s) in
  (set_lastEventId (set_retryCount (set_status s1 disconnected) 0) None, fx).

(** [if (e.lastEventId) lastEventId.value = e.lastEventId]. *)
Definition remember (s : store) (eventId : string) : store :=
  if String.eqb eventId "" then s else set_lastEventId s (Some eventId).

(** What reaches the store: the calls of its actions, and the callbacks
    of the objects it made, each with the generation [g] it closes over.
    A parsed payload is [None] when [JSON.parse] (or reading the payload)
    throws inside the [try]. *)
Inductive input :=
  | CallConnect (taskId : string)
  | CallDisconnect
  | CallStartPolling
  | CallStopPolling
  | CallReset
  | EsOpen (g : nat)
  | EsStep (g : nat) (eventId : string)
           (data : option (option (list TaskStore.StepData)))
  | EsLog (g : nat) (eventId : string) (log : option LogsStore.LogEntry)
  | EsDone (g : nat) (eventId : string) (data : string)
  | EsError (g : nat) (random : Q)
  | RetryFires (g : nat) (taskId : string)
  | PollTick (g : nat) (taskId : string)
  | PollAnswer (g : nat) (answer : js_result StatusData).

(** The generation an input closes over, for the callbacks. *)
Definition closure_of (i : input) : option nat :=
  match i with
  | EsOpen g | EsStep g _ _ | EsLog g _ _ | EsDone g _ _ | EsError g _
  | RetryFires g _ | PollTick g _ | PollAnswer g _ => Some g
  | _ => None
  end.

(** One call or callback. [None]: the browser cannot deliver this input
    now (an event of an [EventSource] the store does not hold, a timeout
    that is not pending, a tick of an interval that is not running). An
    answer of [api.getStatus] is accepted at any time. A handler that calls
    back into the store ([onFallbackToPolling], [onStatus]) does so as the
    last thing that touches the store, so its call is the next input. *)
Definition handle (s : store) (i : input) : option (store * list effect) :=
  match i with
  | CallConnect taskId => Some (connectEventSource s taskId)
  | CallDisconnect => Some (disconnectEventSource s)
  | CallStartPolling => Some (startPolling s)
  | CallStopPolling => Some (stopPolling s)
  | CallReset => Some (reset s)
  | EsOpen g =>
      if decide (eventSource s = Some g) then
        if decide (generation s = g)
        then Some (set_retryCount (set_status s connected) 0, [])
        else Some (s, [CloseEventSource g])
      else None
  | EsStep g eventId data =>
      if decide (eventSource s = Some g) then
        if decide (generation s = g) then
          Some (remember s eventId,
                match data with
                | Some (Some steps) => [OnStep steps]
                | _ => []
                end)
        else Some (s, [])
      else None
  | EsLog g eventId log =>
      if decide (eventSource s = Some g) then
        if decide (generation s = g) then
          Some (remember s eventId,
                match log with
                | Some l => [AppendLog l]
                | None => []
                end)
        else Some (s, [])
      else None
  | EsDone g eventId data =>
      if decide (eventSource s = Some g) then
        if decide (generation s = g) then
          let '(s1, fx) := disconnectEventSourceInternal (remember s eventId) in
          Some (s1, fx ++ [OnDone data])
        else Some (s, [])
      else None
  | EsError g random =>
      if decide (eventSource s = Some g) then
        if decide (generation s = g) then
          let '(s1, fx) := disconnectEventSourceInternal s in
          if (retryCount s1 <? MAX_RETRIES)%nat then
            let s2 := set_status s1 reconnecting in
            Some (arm_retry s2 g,
                  fx ++ [SetTimeout (getRetryDelayWithJitter s2 random) g])
          else
            Some (set_status (set_retryCount s1 0) disconnected,
                  fx ++ [OnFallbackToPolling])
        else Some (s, [CloseEventSource g])
      else None
  | RetryFires g taskId =>
      if decide (pendingRetry s = Some g) then
        if decide (generation s = g) then
          Some (connectEventSource
                  (set_retryCount (fired s) (S (retryCount s))) taskId)
        else Some (fired s, [])
      else None
  | PollTick g taskId =>
      if decide (pollTimer s = Some g) then
        if decide (generation s = g) then Some (s, [GetStatus taskId])
        else Some (stopPollingInternal s)
      else None
  | PollAnswer g answer =>
      match answer with
      | Throw _ => Some (s, [])
      | Return data =>
          if decide (generation s = g) then
            let fx :=
              OnStatus data ::
              match sd_logs data with
              | Some (l :: ls) => [AppendLogs (l :: ls);
                                   UpdateCursor (sd_total_logs data)]
              | _ => []
              end in
            if String.eqb (sd_status data) "completed" then
              let '(s1, fx1) := stopPollingInternal s in
              Some (set_status s1 disconnected, fx ++ fx1 ++ [OnComplete])
            else if String.eqb (sd_status data) "failed" then
              let '(s1, fx1) := stopPollingInternal s in
              Some (set_status s1 disconnected,
                    fx ++ fx1 ++
                    [OnError (default "Unknown error"
                                (TaskStore.or_null (sd_error data)))])
            else Some (s, fx)
          else Some (s, [])
      end
  end.

(** A history of inputs; every effect in order. *)
Fixpoint run (s : store) (inputs : list input)
  : option (store * list effect) :=
  match inputs with
  | [] => Some (s, [])
  | i :: rest =>
      '(s1, fx1) ← handle s i;
      '(s2, fx2) ← run s1 rest;
      Some (s2, fx1 ++ fx2)
  end.

(** The store as [defineStore] creates it. *)
Definition initial : store :=
  {| eventSource := None; pollTimer := None; retryTimer := None;
     connectionStatus := disconnected; retryCount := 0;
     lastEventId := None; generation := 0; pendingRetry := None |}.

(** A connection that fails [k] times in a row: the [EventSource] of
    generation [g] reports an error, its retry timeout fires, and the same
    happens to each [EventSource] made by a retry. [random g] is what
    [Math.random()] returns in the error callback of generation [g]. *)
Fixpoint failing_rounds (random : nat → Q) (taskId : string) (g k : nat)
  : list input :=
  match k with
  | O => []
  | S k' =>
      EsError g (random g) :: RetryFires g taskId ::
      failing_rounds random taskId (S g) k'
  end.

Definition is_NewEventSource (e : effect) : bool :=
  match e with NewEventSource _ _ => true | _ => false end.

Definition is_OnFallbackToPolling (e : effect) : bool :=
  match e with OnFallbackToPolling => true | _ => false end.

(** What every call and callback preserves: the two transports exclude
    each other, and a pending retry of the current generation was set
    while retries were left. *)
Definition conn_inv (s : store) : Prop :=
  (eventSource s = None ∨ pollTimer s = None) ∧
  (retryCount s ≤ MAX_RETRIES)%nat ∧
  (∀ g, pendingRetry s = Some g →
        (g ≤ generation s)%nat ∧
        (g = generation s → (retryCount s < MAX_RETRIES)%nat)).

End ConnectionStore.

(** * Properties *)

(** ** Hardware detection and derived parameters *)

Section ManageFacts.

Import Manage.

Lemma Qle_bool_false (x y : Q) : Qle_bool x y = false → (y < x)%Q.
Proof.
  intros H. apply Qnot_le_lt. intros Hle.
  apply Qle_bool_iff in Hle. congruence.
Qed.

(** The batch tier only moves up when the VRAM grows. *)
Lemma batch_sizes_mono (v1 v2 : Q) :
  (v1 <= v2)%Q →
  (batch_sizes v1).1 ≤ (batch_sizes v2).1 ∧
  (batch_sizes v1).2 ≤ (batch_sizes v2).2.
Proof.
  intros Hv. unfold batch_sizes.
  repeat match goal with
  | |- context [Qle_bool ?a ?b] =>
      let E := fresh "E" in
      destruct (Qle_bool a b) eqn:E;
      [apply Qle_bool_iff in E | apply Qle_bool_false in E]
  end; simpl; try lia; exfalso;
  repeat match goal with
  | H1 : (?a < v1)%Q, H2 : (v2 <= ?a)%Q |- _ =>
      apply (Qlt_irrefl a);
      apply (Qlt_le_trans _ v1); [exact H1|];
      apply (Qle_trans _ v2); [exact Hv | exact H2]
  | H1 : (?a < v1)%Q, H2 : (v2 <= ?b)%Q |- _ =>
      apply (Qlt_irrefl a);
      apply (Qlt_le_trans _ v1); [exact H1|];
      apply (Qle_trans _ v2); [exact Hv|];
      apply (Qle_trans _ b); [exact H2 | discriminate]
  end.
Qed.

Lemma optimal_params_batches (h : hw) :
  det_batch (optimal_params h) = (batch_sizes (default 6%Q (gpu_vram_gb h))).1 ∧
  rec_batch (optimal_params h) = (batch_sizes (default 6%Q (gpu_vram_gb h))).2.
Proof. unfold optimal_params. by destruct (batch_sizes _). Qed.

Lemma optimal_params_workers (h : hw) :
  workers (optimal_params h) = clamp (default 8 (cpu_cores h) / 2) 2 6.
Proof. unfold optimal_params, clamp. by destruct (batch_sizes _). Qed.

(** The reference machine of the plan: 6 GB of VRAM, 8 cores, and about
    5 GB of RAM available. *)
Example optimal_params_reference_machine :
  optimal_params {| gpu_vram_gb := Some (6144 # 1024)%Q;
                    ram_gb := Some (5 # 1)%Q; cpu_cores := Some 8 |}
  = {| det_batch := 2; rec_batch := 16; prefetch := 10; workers := 4 |}.
Proof. reflexivity. Qed.

(** Without a GPU and without psutil: the fallback profile gives the
    smallest batches. *)
Example optimal_params_fallback_profile :
  optimal_params {| gpu_vram_gb := Some 0%Q; ram_gb := Some 8%Q;
                    cpu_cores := Some 4 |}
  = {| det_batch := 1; rec_batch := 8; prefetch := 16; workers := 2 |}.
Proof. reflexivity. Qed.

(** C5, as the code has it: the derived worker count is
    [clamp(cpu_cores // 2, 2, 6)], so it lies between 2 and 6 for every
    core count, and it is this number that the returned settings carry
    under [EXAMPAPER_MAX_WORKERS]. *)
Theorem workers_clamped_to_six (h : hw) :
  workers (optimal_params h) = clamp (default 8 (cpu_cores h) / 2) 2 6 ∧
  2 ≤ workers (optimal_params h) ≤ 6 ∧
  calculate_optimal_params h !! "EXAMPAPER_MAX_WORKERS"
    = Some (pretty (clamp (default 8 (cpu_cores h) / 2) 2 6)).
Proof.
  pose proof (optimal_params_workers h) as Hw. split; [exact Hw|]. split.
  - rewrite Hw. unfold clamp. lia.
  - unfold calculate_optimal_params. rewrite Hw.
    by repeat (rewrite lookup_insert_ne; [|done]); rewrite lookup_insert_eq.
Qed.

(** C5 fails as stated: with 12 cores the code derives 6 workers, which
    is neither [clamp(12 // 2, 2, 4)] nor at most 4. *)
Lemma workers_twelve_cores :
  ¬ (workers (optimal_params {| gpu_vram_gb := Some 6%Q; ram_gb := Some 24%Q;
                                cpu_cores := Some 12 |})
       = clamp (12 / 2) 2 4 ∧
     workers (optimal_params {| gpu_vram_gb := Some 6%Q; ram_gb := Some 24%Q;
                                cpu_cores := Some 12 |}) ≤ 4).
Proof. vm_compute. by intros [? _]. Qed.

(** C6, as the code has it: when the RAM probe succeeds or fails with an
    [ImportError], detection returns a profile whose three fields are
    chosen independently: 0 GB of VRAM for any failure of the GPU query,
    8 GB of RAM for the missing module, and the reported core count or 4.
    Any other exception of the RAM probe is the outcome of the call. *)
Theorem detect_hardware_fallbacks (p : probes) :
  ((∀ e, psutil_available p = Raise e → is_ImportError e = true) →
  detect_hardware p =
    Ok {| gpu_vram_gb :=
            Some match nvidia_smi p with
                 | Ok vram_mb => (inject_Z vram_mb / 1024)%Q
                 | Raise _ => 0%Q
                 end;
          ram_gb :=
            Some match psutil_available p with
                 | Ok avail => (inject_Z avail / inject_Z (1024 ^ 3))%Q
                 | Raise _ => 8%Q
                 end;
          cpu_cores :=
            Some match cpu_count p with
                 | Some n => if decide (n = 0) then 4 else n
                 | None => 4
                 end |}) ∧
  (∀ e, psutil_available p = Raise e → is_ImportError e = false →
        detect_hardware p = Raise e).
Proof.
  split.
  - intros Hram. unfold detect_hardware, py_or.
    destruct (psutil_available p) as [avail|e] eqn:Ep.
    + do 3 f_equal. destruct (cpu_count p) as [n|]; [|done].
      destruct (Z.eqb_spec n 0); by case_decide.
    + rewrite (Hram e eq_refl). do 3 f_equal.
      destruct (cpu_count p) as [n|]; [|done].
      destruct (Z.eqb_spec n 0); by case_decide.
  - intros e He Hi. unfold detect_hardware. by rewrite He, Hi.
Qed.

Lemma detect_hardware_fallbacks_witness :
  detect_hardware {| nvidia_smi := Raise FileNotFoundError;
                     psutil_available := Raise ModuleNotFoundError;
                     cpu_count := None |}
  = Ok {| gpu_vram_gb := Some 0%Q; ram_gb := Some 8%Q;
          cpu_cores := Some 4 |}.
Proof.
  destruct (detect_hardware_fallbacks
              {| nvidia_smi := Raise FileNotFoundError;
                 psutil_available := Raise ModuleNotFoundError;
                 cpu_count := None |}) as [H _].
  apply H. simpl. intros e [= <-]. reflexivity.
Defined.

(** C6 fails as stated: a RAM query that fails with an [OSError] is not
    replaced by the 8 GB fallback; [detect_hardware] raises. *)
Lemma detect_hardware_raises :
  detect_hardware {| nvidia_smi := Ok 6144;
                     psutil_available := Raise OSError;
                     cpu_count := Some 8 |}
  = Raise OSError ∧
  ¬ ∃ h, detect_hardware {| nvidia_smi := Ok 6144;
                            psutil_available := Raise OSError;
                            cpu_count := Some 8 |} = Ok h.
Proof. split; [reflexivity|]. intros [h H]. discriminate H. Qed.

(** C7: when the VRAM of one profile is at most that of another (so in
    particular along 4, 6, 8, 12 GB), neither the detector batch size nor
    the recognizer batch size decreases, whatever the other fields are. *)
Theorem batch_sizes_monotone (h1 h2 : hw) :
  (default 6%Q (gpu_vram_gb h1) <= default 6%Q (gpu_vram_gb h2))%Q →
  det_batch (optimal_params h1) ≤ det_batch (optimal_params h2) ∧
  rec_batch (optimal_params h1) ≤ rec_batch (optimal_params h2).
Proof.
  intros Hv.
  destruct (optimal_params_batches h1) as [-> ->].
  destruct (optimal_params_batches h2) as [-> ->].
  by apply batch_sizes_mono.
Qed.

Lemma batch_sizes_monotone_witness :
  det_batch (optimal_params {| gpu_vram_gb := Some 4%Q; ram_gb := Some 24%Q;
                               cpu_cores := Some 8 |})
  ≤ det_batch (optimal_params {| gpu_vram_gb := Some 6%Q; ram_gb := Some 24%Q;
                                 cpu_cores := Some 8 |}) ∧
  rec_batch (optimal_params {| gpu_vram_gb := Some 4%Q; ram_gb := Some 24%Q;
                               cpu_cores := Some 8 |})
  ≤ rec_batch (optimal_params {| gpu_vram_gb := Some 6%Q; ram_gb := Some 24%Q;
                                 cpu_cores := Some 8 |}).
Proof.
  apply (batch_sizes_monotone
           {| gpu_vram_gb := Some 4%Q; ram_gb := Some 24%Q;
              cpu_cores := Some 8 |}
           {| gpu_vram_gb := Some 6%Q; ram_gb := Some 24%Q;
              cpu_cores := Some 8 |}).
  simpl. discriminate.
Defined.

End ManageFacts.

(** ** The hybrid scheduler *)

Section HybridFacts.

Import Hybrid.

Context {pipeline : Type}.
Variable int_of_string : string → option Z.
Variable float_of_string : string → option pyfloat.
Variable TIMEOUT_MAX : Q.
Variable environ : gmap string string.

Abbreviation tstep :=
  (acquire_step (pipeline := pipeline) float_of_string TIMEOUT_MAX environ).
Abbreviation gstep :=
  (step (pipeline := pipeline) float_of_string TIMEOUT_MAX environ).
Abbreviation grun :=
  (run (pipeline := pipeline) float_of_string TIMEOUT_MAX environ).
Abbreviation trun :=
  (acquire_run (pipeline := pipeline) float_of_string TIMEOUT_MAX environ).

(** A step moves a permit between the counter and the stepping thread. *)
Lemma acquire_step_balance d m p c m' p' :
  tstep m p c = Some (m', p') →
  (sem d m' + b2n (in_scope d p') = sem d m + b2n (in_scope d p))%nat.
Proof.
  unfold acquire_step, try_acquire, release.
  destruct p as [| |  | | | | |t ?|]; destruct c as [| |[]|[]|];
    try discriminate; simpl; repeat case_match; try discriminate;
    intros [= <- <-];
    repeat match goal with
    | H : Some _ = Some _ |- _ => injection H as <-
    end;
    try destruct t; destruct d; simpl in *; lia.
Qed.

Lemma count_cons f (p : pc (pipeline := pipeline)) l :
  count f (p :: l) = (b2n (f p) + count f l)%nat.
Proof.
  unfold count. rewrite filter_cons.
  destruct (decide (f p)) as [H|H]; simpl.
  - by destruct (f p).
  - by destruct (f p).
Qed.

Lemma count_insert f (l : list (pc (pipeline := pipeline))) i p p' :
  l !! i = Some p →
  (count f (<[i := p']> l) + b2n (f p) = count f l + b2n (f p'))%nat.
Proof.
  revert i. induction l as [|q l IH]; intros [|i] Hi; simplify_eq/=.
  - rewrite !count_cons. lia.
  - rewrite !count_cons. specialize (IH _ Hi). lia.
Qed.

Lemma count_replicate f (p : pc (pipeline := pipeline)) n :
  f p = false → count f (replicate n p) = 0%nat.
Proof.
  intros Hf. induction n as [|n IH]; [done|].
  simpl. rewrite count_cons, Hf, IH. done.
Qed.

Lemma count_le f g (l : list (pc (pipeline := pipeline))) :
  (∀ p, f p = true → g p = true) → (count f l ≤ count g l)%nat.
Proof.
  intros Hfg. induction l as [|p l IH]; [done|].
  rewrite !count_cons. specialize (Hfg p).
  destruct (f p), (g p); simpl; lia.
Qed.

Lemma count_zero f (l : list (pc (pipeline := pipeline))) :
  Forall (λ p, f p = false) l → count f l = 0%nat.
Proof.
  induction 1 as [|p l Hp _ IH]; [done|]. by rewrite count_cons, Hp, IH.
Qed.

Lemma count_pos f (l : list (pc (pipeline := pipeline))) :
  (0 < count f l)%nat → ∃ i p, l !! i = Some p ∧ f p = true.
Proof.
  induction l as [|q l IH]; [unfold count; simpl; lia|].
  rewrite count_cons. destruct (f q) eqn:Hq.
  - intros _. by exists 0%nat, q.
  - simpl. intros H. destruct (IH H) as (i & p & Hi & Hp).
    by exists (S i), p.
Qed.

Lemma step_balance d s i c s' :
  gstep s i c = Some s' →
  (sem d (mgr s') + count (in_scope d) (threads s')
   = sem d (mgr s) + count (in_scope d) (threads s))%nat.
Proof.
  unfold step. intros H.
  destruct (threads s !! i) as [p|] eqn:Hp; simplify_eq/=.
  destruct (tstep (mgr s) p c) as [[m' p']|] eqn:Hs; simplify_eq/=.
  pose proof (acquire_step_balance d _ _ _ _ _ Hs).
  pose proof (count_insert (in_scope d) _ _ _ p' Hp). lia.
Qed.

Lemma run_balance d sched : ∀ s s',
  grun s sched = Some s' →
  (sem d (mgr s') + count (in_scope d) (threads s')
   = sem d (mgr s) + count (in_scope d) (threads s))%nat.
Proof.
  induction sched as [|[i c] sched IH]; intros s s' H; simplify_eq/=; [done|].
  destruct (gstep s i c) as [s1|] eqn:Hs; simplify_eq/=.
  rewrite (IH _ _ H). by eapply step_balance.
Qed.

(** Every permit that is out of a counter is with a thread in scope. *)
Lemma reachable_balance d m g n sched s :
  grun (initial m g n) sched = Some s →
  (sem d (mgr s) + count (in_scope d) (threads s) = sem d m)%nat.
Proof.
  intros H. rewrite (run_balance d _ _ _ H). unfold initial. simpl.
  rewrite count_replicate by (by destruct d). destruct d; simpl; lia.
Qed.

Lemma init_permits (m : manager (pipeline := pipeline)) :
  init int_of_string environ = Ok m →
  gpu_sem m = 1%nat ∧
  ∃ n, cpu_ocr_slots int_of_string environ = Some n ∧ 0 ≤ n ∧
       cpu_sem m = Z.to_nat n.
Proof.
  unfold init. destruct (cpu_ocr_slots _ _) as [n|]; [|done].
  destruct (Z.ltb_spec n 0); [done|]. intros [= <-]. simpl. eauto.
Qed.

Lemma count_two f (l : list (pc (pipeline := pipeline))) i j p q :
  i ≠ j → l !! i = Some p → l !! j = Some q →
  f p = true → f q = true → (2 ≤ count f l)%nat.
Proof.
  revert i j. induction l as [|x l IH]; intros i j Hij Hi Hj Hp Hq; [done|].
  rewrite count_cons. destruct i as [|i], j as [|j]; simplify_eq/=.
  - rewrite Hp. simpl.
    assert (0 < count f l)%nat; [|lia].
    clear IH Hij. revert j Hj. induction l as [|y l IH]; intros j Hj; [done|].
    rewrite count_cons. destruct j as [|j]; simplify_eq/=.
    + rewrite Hq. simpl. lia.
    + specialize (IH _ Hj). lia.
  - rewrite Hq. simpl.
    assert (0 < count f l)%nat; [|lia].
    clear IH Hij. revert i Hi. induction l as [|y l IH]; intros i Hi; [done|].
    rewrite count_cons. destruct i as [|i]; simplify_eq/=.
    + rewrite Hp. simpl. lia.
    + specialize (IH _ Hi). lia.
  - assert (i ≠ j) by congruence.
    specialize (IH i j ltac:(done) Hi Hj Hp Hq). lia.
Qed.

Lemma in_scope_gpu_body (p : pc (pipeline := pipeline)) :
  in_scope Gpu p = true → ∃ t pipe, p = InBody t pipe ∧ device_of t = Gpu.
Proof. destruct p as [| | | | | | |[] ?|]; try done; eauto. Qed.





(** C2: in every state that the threads can reach, the permits missing
    from a lock are exactly those of the threads between its acquisition
    and its release, so never more than the lock was created with, and
    the counter never exceeds that number either; a
    thread in a body always can leave it, with a result or an exception,
    and the step puts its permit back; and when every thread is outside
    [acquire], both locks hold all their permits again. *)
Theorem permits_released m g n sched s :
  init int_of_string environ = Ok m →
  grun (initial m g n) sched = Some s →
  (gpu_sem (mgr s) + count (in_scope Gpu) (threads s) = 1)%nat ∧
  (cpu_sem (mgr s) + count (in_scope Cpu) (threads s) = cpu_sem m)%nat ∧
  (count (in_scope Gpu) (threads s) ≤ 1)%nat ∧
  (count (in_scope Cpu) (threads s) ≤ cpu_sem m)%nat ∧
  (gpu_sem (mgr s) ≤ 1)%nat ∧ (cpu_sem (mgr s) ≤ cpu_sem m)%nat ∧
  (∀ i t pipe r, threads s !! i = Some (InBody t pipe) →
     ∃ s', gstep s i (BodyDone r) = Some s' ∧
           threads s' !! i = Some (Returned r) ∧
           sem (device_of t) (mgr s') = S (sem (device_of t) (mgr s))) ∧
  (Forall (λ p, outside_call p = true) (threads s) →
     gpu_sem (mgr s) = 1%nat ∧ cpu_sem (mgr s) = cpu_sem m).
Proof.
  intros Hinit Hrun.
  destruct (init_permits _ Hinit) as [Hg _].
  pose proof (reachable_balance Gpu _ _ _ _ _ Hrun) as HG.
  pose proof (reachable_balance Cpu _ _ _ _ _ Hrun) as HC.
  simpl in HG, HC. rewrite Hg in HG.
  repeat split; try lia.
  - intros i t pipe r Hi. eexists. unfold step. rewrite Hi. simpl.
    split; [done|]. simpl. split.
    + apply list_lookup_insert_eq. by apply lookup_lt_Some in Hi.
    + by destruct t.
  - rewrite count_zero in HG; [lia|].
    eapply Forall_impl; [done|]. by intros [].
  - rewrite count_zero in HC; [lia|].
    eapply Forall_impl; [done|]. by intros [].
Qed.

(** C3: however many threads submit work and however they are scheduled,
    at most one of them is inside a body that runs on the GPU pipeline (two
    such threads are the same thread), and at most as many as the CPU lock
    has permits (2 unless set) are inside a body on the CPU pipeline. *)
Theorem mutual_exclusion m g n sched s :
  init int_of_string environ = Ok m →
  grun (initial m g n) sched = Some s →
  (count (in_body Gpu) (threads s) ≤ 1)%nat ∧
  (count (in_body Cpu) (threads s) ≤ cpu_sem m)%nat ∧
  (∀ i j ti pi tj pj,
     threads s !! i = Some (InBody ti pi) → device_of ti = Gpu →
     threads s !! j = Some (InBody tj pj) → device_of tj = Gpu →
     i = j) ∧
  (environ !! "EXAMPAPER_CPU_OCR_SLOTS" = None → cpu_sem m = 2%nat).
Proof.
  intros Hinit Hrun.
  destruct (init_permits _ Hinit) as [Hg (k & Hk & Hk0 & Hc)].
  pose proof (reachable_balance Gpu _ _ _ _ _ Hrun) as HG.
  pose proof (reachable_balance Cpu _ _ _ _ _ Hrun) as HC.
  simpl in HG, HC. rewrite Hg in HG.
  assert (∀ d (p : pc (pipeline := pipeline)),
            in_body d p = true → in_scope d p = true) as Hsub.
  { intros [] [| | | | | | |[] ?|]; done. }
  pose proof (count_le _ _ (threads s) (Hsub Gpu)) as HbG.
  pose proof (count_le _ _ (threads s) (Hsub Cpu)) as HbC.
  repeat split; try lia.
  - intros i j ti pi tj pj Hi Hti Hj Htj.
    destruct (decide (i = j)) as [|Hij]; [done|]. exfalso.
    assert (2 ≤ count (in_body Gpu) (threads s))%nat; [|lia].
    eapply (count_two _ _ i j); [done|exact Hi|exact Hj| |].
    + by destruct ti.
    + by destruct tj.
  - intros He. unfold cpu_ocr_slots in Hk. rewrite He in Hk.
    injection Hk as <-. by rewrite Hc.
Qed.

End HybridFacts.

Section HybridWitnesses.

Import Hybrid.

(** A manager after [__init__] with an empty environment. *)
Local Abbreviation m2 :=
  ({| gpu_pipeline := @None nat; cpu_pipeline := None;
      gpu_sem := 1; cpu_sem := 2 |}).

(** Three threads: the first takes the GPU, the others take CPU permits. *)
Local Abbreviation sched3 :=
  ([(0, Go); (1, Go); (1, Go); (2, Go); (2, Go)]%nat
   : list (nat * choice (pipeline := nat))).

(** The largest timeout of a 64-bit Linux build, in seconds. *)
Local Abbreviation max_wait := (9223372036 # 1)%Q.

(** One CPU permit and a timeout of half a second; the parsers know the
    strings used here. *)
Local Abbreviation one_slot_environ :=
  (<["EXAMPAPER_CPU_OCR_SLOTS" := "1"]>
     (<["EXAMPAPER_CPU_FALLBACK_TIMEOUT" := "0.5"]> ∅)
   : gmap string string).

Local Abbreviation long_wait_environ :=
  (<["EXAMPAPER_CPU_FALLBACK_TIMEOUT" := "1e30"]> ∅ : gmap string string).

Local Abbreviation parse_int :=
  (λ s : string, if String.eqb s "1" then Some 1%Z else None).

Local Abbreviation parse_float :=
  (λ s : string,
     if String.eqb s "0.5" then Some (Finite (1 # 2))
     else if String.eqb s "1e30" then Some (Finite (inject_Z (10 ^ 30)))
     else None).

Local Abbreviation one_slot :=
  ({| gpu_pipeline := @None nat; cpu_pipeline := None;
      gpu_sem := 1; cpu_sem := 1 |}).

(** The first thread takes the GPU; the second takes the CPU permit,
    builds the CPU pipeline and enters its body; the third finds both
    locks busy and its wait expires. *)
Local Abbreviation contended :=
  ([(0, Go); (1, Go); (1, Go); (1, Go); (1, Created (Ok 9)); (1, Go);
    (1, Go); (2, Go); (2, TimedOut)]%nat
   : list (nat * choice (pipeline := nat))).

(** Four threads: one on the GPU, two on the CPU, and a fourth that
    finds every permit taken. *)
Local Abbreviation all_busy :=
  ([(0, Go); (1, Go); (1, Go); (2, Go); (2, Go); (3, Go); (3, Go)]%nat
   : list (nat * choice (pipeline := nat))).



Lemma permits_released_witness :
  ∃ s, run (λ _, None) max_wait (∅ : gmap string string)
           (initial m2 (Some 7%nat) 3) sched3 = Some s ∧
       (gpu_sem (mgr s) + count (in_scope Gpu) (threads s) = 1)%nat ∧
       (cpu_sem (mgr s) + count (in_scope Cpu) (threads s) = 2)%nat.
Proof.
  assert (init (pipeline := nat) (λ _, None) (∅ : gmap string string)
          = Ok m2) as Hinit by (vm_compute; reflexivity).
  eexists. split; [vm_compute; reflexivity|].
  destruct (permits_released (λ _, None) (λ _, None) max_wait _ _
              (Some 7%nat) 3 sched3 _ Hinit ltac:(vm_compute; reflexivity))
    as (HG & HC & _).
  split; [exact HG | exact HC].
Defined.

Lemma mutual_exclusion_witness :
  ∃ s, run (λ _, None) max_wait (∅ : gmap string string)
           (initial m2 (Some 7%nat) 3) sched3 = Some s ∧
       (count (in_body Gpu) (threads s) ≤ 1)%nat ∧
       (count (in_body Cpu) (threads s) ≤ 2)%nat.
Proof.
  assert (init (pipeline := nat) (λ _, None) (∅ : gmap string string)
          = Ok m2) as Hinit by (vm_compute; reflexivity).
  eexists. split; [vm_compute; reflexivity|].
  destruct (mutual_exclusion (λ _, None) (λ _, None) max_wait _ _
              (Some 7%nat) 3 sched3 _ Hinit ltac:(vm_compute; reflexivity))
    as (HG & HC & _).
  split; [exact HG | exact HC].
Defined.

End HybridWitnesses.

(** ** The page worker pool *)

Section PoolFacts.

Import PageWorkerPool.

Context {PageInput PageResult : Type}.
Variable infer : PageInput → PageResult.

Lemma tag_units_indices (pages : list PageInput) :
  (tag_units pages).*1 = seq 0 (length pages).
Proof.
  unfold tag_units. apply list_eq. intros i.
  rewrite list_lookup_fmap, list_lookup_imap.
  destruct (pages !! i) as [p|] eqn:Hp; simpl.
  - symmetry. apply lookup_seq. split; [done|]. by apply lookup_lt_Some in Hp.
  - symmetry. apply lookup_ge_None. rewrite length_seq.
    by apply lookup_ge_None in Hp.
Qed.

Lemma store_slots_length (slots : list (option PageResult)) finished :
  length (foldl (λ slots u, <[u.1 := Some u.2]> slots) slots finished)
  = length slots.
Proof.
  revert slots. induction finished as [|u finished IH]; intros slots; [done|].
  simpl. by rewrite IH, length_insert.
Qed.

(** A slot is left alone by units that carry other tags. *)
Lemma store_slots_other (slots : list (option PageResult)) finished i :
  i ∉ finished.*1 →
  foldl (λ slots u, <[u.1 := Some u.2]> slots) slots finished !! i
  = slots !! i.
Proof.
  revert slots. induction finished as [|u finished IH]; intros slots Hi; [done|].
  simpl in *. apply not_elem_of_cons in Hi as [Hne Hi].
  rewrite IH by done. by apply list_lookup_insert_ne.
Qed.

(** With distinct tags, the slot of a finished unit holds its result,
    wherever in the completion order the unit stands. *)
Lemma store_slots_lookup (slots : list (option PageResult)) finished i r :
  NoDup finished.*1 → (i, r) ∈ finished → (i < length slots)%nat →
  foldl (λ slots u, <[u.1 := Some u.2]> slots) slots finished !! i
  = Some (Some r).
Proof.
  revert slots.
  induction finished as [|u finished IH]; intros slots Hnd Hin Hlen.
  - by apply elem_of_nil in Hin.
  - simpl in *. apply NoDup_cons in Hnd as [Hu Hnd].
    apply elem_of_cons in Hin as [<-|Hin].
    + simpl in *. rewrite store_slots_other by done.
      by apply list_lookup_insert_eq.
    + apply IH; [done|done|]. by rewrite length_insert.
Qed.

(** C4: whatever the order in which the consumers finish the units of
    the submitted pages, the pool returns one result per page, the result
    of each page standing at the position the page was submitted at. *)
Theorem process_pages_preserves_order
    (pages : list PageInput) (completion : list (nat * PageInput)) :
  completion ≡ₚ tag_units pages →
  process_pages infer pages completion = Some (infer <$> pages).
Proof.
  intros Hperm. unfold process_pages.
  assert (collect (length pages) (consume infer <$> completion)
          = Some <$> (infer <$> pages)) as ->.
  { apply list_eq. intros i. unfold collect.
    rewrite !list_lookup_fmap.
    destruct (pages !! i) as [p|] eqn:Hp; simpl.
    - apply store_slots_lookup.
      + rewrite <- list_fmap_compose.
        assert ((fst ∘ consume infer <$> completion) = completion.*1) as ->
          by (by apply list_fmap_ext).
        rewrite Hperm, tag_units_indices. apply NoDup_seq.
      + apply (list_elem_of_fmap_2' (consume infer) _ (i, p)); [|done].
        rewrite Hperm. unfold tag_units.
        by apply (elem_of_lookup_imap_2 (λ i p, (i, p))).
      + rewrite length_replicate. by apply lookup_lt_Some in Hp.
    - apply lookup_ge_None. rewrite store_slots_length, length_replicate.
      by apply lookup_ge_None in Hp. }
  apply mapM_fmap_Some. done.
Qed.

End PoolFacts.

Lemma process_pages_preserves_order_witness :
  PageWorkerPool.process_pages (λ p : nat, (p * 10)%nat) [5; 6; 7]%nat
    [(2, 7); (0, 5); (1, 6)]%nat
  = Some [50; 60; 70]%nat.
Proof.
  apply (process_pages_preserves_order (λ p : nat, (p * 10)%nat)
           [5; 6; 7]%nat [(2, 7); (0, 5); (1, 6)]%nat).
  vm_compute.
  eapply perm_trans; [apply perm_swap|].
  apply perm_skip. apply perm_swap.
Defined.

(** ** The task store *)

Section TaskStoreFacts.

Import TaskStore.

Lemma js_index_Some {A} (l : list A) (i : Z) (x : A) :
  js_index l i = Some x ↔ 0 ≤ i ∧ l !! Z.to_nat i = Some x.
Proof.
  unfold js_index. destruct (Z.ltb_spec i 0); split.
  - done.
  - intros [? _]. lia.
  - intros ?. split; [lia | done].
  - by intros [_ ?].
Qed.



(** What the [forEach] of [restartFromStep] leaves at each position. *)
Lemma apply_reset_lookup (l : list Step) (resp : list RespStep) (i : nat) :
  apply_reset l resp !! i
  = match resp !! i with
    | Some r => (λ x, reset_step x r) <$> l !! i
    | None => l !! i
    end.
Proof.
  unfold apply_reset. revert i.
  induction resp as [|r resp IH] using rev_ind; intros i; [done|].
  rewrite imap_app, foldl_app. simpl. rewrite Nat.add_0_r.
  set (acc := foldl _ l (imap _ resp)) in *.
  destruct (decide (i = length resp)) as [->|Hne].
  - rewrite lookup_app_r, Nat.sub_diag by done. simpl.
    specialize (IH (length resp)).
    rewrite (lookup_ge_None_2 resp) in IH by done.
    destruct (acc !! length resp) as [x|] eqn:Hx.
    + rewrite list_lookup_insert_eq by (by apply lookup_lt_Some in Hx).
      by rewrite <- IH.
    + by rewrite Hx, <- IH.
  - assert ((resp ++ [r]) !! i = resp !! i) as ->.
    { destruct (decide (i < length resp)%nat).
      - by rewrite lookup_app_l.
      - rewrite !lookup_ge_None_2; [done|lia|].
        rewrite length_app. simpl. lia. }
    rewrite <- IH.
    destruct (acc !! length resp); [|done].
    by rewrite list_lookup_insert_ne.
Qed.

(** [startStep] touches the step it is given and no other, and asks the
    server to start that step only. *)
Lemma startStep_frame s k b a s' fx r :
  startStep s k b a = (s', fx, r) →
  mode s' = mode s ∧
  (∀ i, Z.of_nat i ≠ k → steps s' !! i = steps s !! i) ∧
  (∀ i x, steps s !! i = Some x →
     steps s' !! i = Some x ∨ ∃ st, steps s' !! i = Some (with_status x st)) ∧
  (∀ t j b', ApiStartStep t j b' ∈ fx → j = k ∧ b' = b).
Proof.
  unfold startStep, set_step_status. intros H.
  destruct (task_of s) as [t|]; simpl in H;
    [|injection H as <- <- <-;
      split; [done|split; [done|split;
        [by intros; left|by intros ? ? ? ?%elem_of_nil]]]].
  destruct (js_index (steps s) k) as [x|] eqn:Hx;
    [|injection H as <- <- <-;
      split; [done|split; [done|split;
        [by intros; left|by intros ? ? ? ?%elem_of_nil]]]].
  apply js_index_Some in Hx as [Hk Hx].
  assert (Z.to_nat k < length (steps s))%nat by (by apply lookup_lt_Some in Hx).
  assert (js_index (<[Z.to_nat k := with_status x running]> (steps s)) k
          = Some (with_status x running)) as Hx'.
  { apply js_index_Some. split; [done|]. by apply list_lookup_insert_eq. }
  simpl in H. rewrite Hx' in H.
  destruct a as [[]|e]; injection H as <- <- <-; simpl;
    (split; [done|split; [|split]]).
  - intros i Hi. apply list_lookup_insert_ne. lia.
  - intros i y Hy. destruct (decide (i = Z.to_nat k)) as [->|Hne].
    + right. exists running. rewrite Hx in Hy. injection Hy as <-.
      by apply list_lookup_insert_eq.
    + left. by rewrite list_lookup_insert_ne.
  - intros t' j b' Hin.
    repeat (apply elem_of_cons in Hin as [Hin|Hin];
            [try discriminate Hin; try (by injection Hin as -> -> ->)|]).
    by apply elem_of_nil in Hin.
  - intros i Hi. rewrite !list_lookup_insert_ne by lia. done.
  - intros i y Hy. destruct (decide (i = Z.to_nat k)) as [->|Hne].
    + right. exists failed. rewrite Hx in Hy. injection Hy as <-.
      rewrite list_lookup_insert_eq by (by rewrite length_insert). done.
    + left. by rewrite !list_lookup_insert_ne.
  - intros t' j b' Hin.
    repeat (apply elem_of_cons in Hin as [Hin|Hin];
            [try discriminate Hin; try (by injection Hin as -> -> ->)|]).
    by apply elem_of_nil in Hin.
Qed.

(** The steps after [restartFromStep]: the list [base] that the response
    leaves, changed by [startStep] at position [k] at most. *)
Lemma restartFromStep_steps s k api_restart api_start s' fx :
  restartFromStep s k api_restart api_start = (s', fx) →
  ∃ base,
    (base = steps s ∨
     ∃ resp rs, api_restart = Return resp ∧ resp_steps resp = Some rs ∧
                base = apply_reset (steps s) rs) ∧
    (task_of s ≠ None → ∀ resp rs,
       api_restart = Return resp → resp_steps resp = Some rs →
       base = apply_reset (steps s) rs) ∧
    (∀ i, Z.of_nat i ≠ k → steps s' !! i = base !! i) ∧
    (∀ i x, base !! i = Some x →
       steps s' !! i = Some x ∨
       ∃ st, steps s' !! i = Some (with_status x st)) ∧
    (∀ t j b, ApiStartStep t j b ∈ fx → j = k ∧ b = false ∧ mode s = manual).
Proof.
  unfold restartFromStep. intros H.
  destruct (task_of s) as [t|] eqn:Ht.
  2:{ injection H as <- <-. exists (steps s).
      split; [by left|]. split; [done|]. split; [done|].
      split; [by intros; left|]. by intros ? ? ? ?%elem_of_nil. }
  destruct api_restart as [resp|e].
  2:{ injection H as <- <-. exists (steps s).
      split; [by left|]. split; [done|]. split; [done|].
      split; [by intros; left|]. intros t' j b' Hin.
      repeat (apply elem_of_cons in Hin as [Hin|Hin]; [discriminate Hin|]).
      by apply elem_of_nil in Hin. }
  set (s1 := match resp_steps resp with
             | Some rs => with_steps s (apply_reset (steps s) rs)
             | None => s
             end) in *.
  assert (mode s1 = mode s) as Hmode
    by (unfold s1; by destruct (resp_steps resp)).
  exists (steps s1).
  assert ((steps s1 = steps s ∨
           ∃ resp0 rs, Return resp = Return resp0 ∧
                       resp_steps resp0 = Some rs ∧
                       steps s1 = apply_reset (steps s) rs) ∧
          (Some t ≠ None → ∀ resp0 rs,
             Return resp = Return resp0 → resp_steps resp0 = Some rs →
             steps s1 = apply_reset (steps s) rs)) as [Hb1 Hb2].
  { unfold s1. destruct (resp_steps resp) as [rs|] eqn:Hrs; split.
    - right. by exists resp, rs.
    - intros _ resp0 rs0 [= <-] Hrs0. rewrite Hrs in Hrs0.
      by injection Hrs0 as <-.
    - by left.
    - intros _ resp0 rs0 [= <-] Hrs0. congruence. }
  split; [exact Hb1|]. split; [exact Hb2|].
  rewrite Hmode in H. destruct (mode s) eqn:Hm.
  - injection H as <- <-. split; [done|]. split; [by intros; left|].
    intros t' j b' Hin.
    repeat (apply elem_of_cons in Hin as [Hin|Hin]; [discriminate Hin|]).
    by apply elem_of_nil in Hin.
  - destruct (startStep s1 k false api_start) as [[s2 fx2] r] eqn:Hstart.
    destruct (startStep_frame _ _ _ _ _ _ _ Hstart) as (_ & Hf1 & Hf2 & Hf3).
    assert (s' = s2 ∧ ∀ t' j b', ApiStartStep t' j b' ∈ fx →
                                 ApiStartStep t' j b' ∈ fx2) as [-> Hfx].
    { destruct r; injection H as <- <-; (split; [done|]); intros t' j b' Hin.
      - repeat (apply elem_of_cons in Hin as [Hin|Hin]; [discriminate Hin|]).
        done.
      - repeat (apply elem_of_cons in Hin as [Hin|Hin]; [discriminate Hin|]).
        apply elem_of_app in Hin as [Hin|Hin]; [done|].
        apply elem_of_cons in Hin as [Hin|Hin]; [discriminate Hin|].
        by apply elem_of_nil in Hin. }
    split; [exact Hf1|]. split; [exact Hf2|].
    intros t' j b' Hin. destruct (Hf3 _ _ _ (Hfx _ _ _ Hin)) as [-> ->].
    done.
Qed.

(** A task in automatic mode whose first step failed and whose second
    step completed. *)
Local Abbreviation failed_then_completed :=
  {| taskId := Some "t"; task_status := paused; mode := auto;
     steps := apply_upload createDefaultSteps
                [ {| rs_status := failed; rs_artifact_count := None |};
                  {| rs_status := completed; rs_artifact_count := Some 3 |} ]
  |}.



(** A task in manual mode whose first two steps completed with three
    artifacts each, and the server's answer to a restart from step 2. *)
Local Abbreviation two_done :=
  {| taskId := Some "t"; task_status := paused; mode := manual;
     steps := apply_upload createDefaultSteps
                [ {| rs_status := completed; rs_artifact_count := Some 3 |};
                  {| rs_status := completed; rs_artifact_count := Some 3 |} ]
  |}.

Local Abbreviation restart_steps :=
  [ {| rs_status := completed; rs_artifact_count := Some 3 |};
    {| rs_status := completed; rs_artifact_count := Some 3 |};
    {| rs_status := pending; rs_artifact_count := None |};
    {| rs_status := pending; rs_artifact_count := None |};
    {| rs_status := pending; rs_artifact_count := None |} ].

Local Abbreviation restart_answer :=
  (Return {| resp_steps := Some restart_steps; resp_message := None |}).

(** C9 at the failing input. A manual task whose steps 0 and 1 completed
    with three artifacts each is restarted from step 2, and the server
    answers with all five steps, reporting steps 0 and 1 as completed
    with three artifacts. Only step 2 is started again, and steps 0 and 1
    keep their status; but the loop of [restartFromStep] has no test on
    the index and writes the count 0 into every step of the response, so
    steps 0 and 1 lose their artifact counts, which the loop of
    [uploadFile] copies from the same entries. The store does not leave
    steps 0 and 1 as they were. *)
Theorem restartFromStep_clears_earlier_counts :
  let after := restartFromStep two_done 2 restart_answer (Return tt) in
  artifact_count <$> steps two_done = [3; 3; 0; 0; 0] ∧
  artifact_count <$> steps after.1 = [0; 0; 0; 0; 0] ∧
  status <$> steps after.1
  = [completed; completed; running; pending; pending] ∧
  (∀ t j b, ApiStartStep t j b ∈ after.2 → j = 2) ∧
  artifact_count <$> apply_upload (steps two_done) restart_steps
  = [3; 3; 0; 0; 0] ∧
  ¬ (∀ i, (i < 2)%nat → steps after.1 !! i = steps two_done !! i).
Proof.
  cbv zeta. split; [reflexivity|]. split; [reflexivity|].
  split; [reflexivity|]. split; [|split].
  - intros t j b Hin. vm_compute in Hin.
    repeat (apply elem_of_cons in Hin as [Hin|Hin];
            [try discriminate Hin; try (by injection Hin as _ <- _)|]).
    by apply elem_of_nil in Hin.
  - reflexivity.
  - intros H. specialize (H 0%nat ltac:(lia)).
    vm_compute in H. discriminate H.
Qed.

End TaskStoreFacts.

(** ** The SSE reader *)

Section SseFacts.

Import Sse.

Context {T : Type}.
Variable JSON_parse : jsstring → option T.
Context {decoder : Type}.
Variable decode : decoder → list Byte.byte → jsstring * decoder.
Variable new_decoder : decoder.

Lemma drain_unfold (buffer : jsstring) :
  drain JSON_parse buffer
  = match indexOf boundary buffer with
    | None => ([], buffer)
    | Some i =>
        let rest := drain JSON_parse (drop (i + 2) buffer) in
        (emit JSON_parse (take i buffer) ++ rest.1, rest.2)
    end.
Proof.
  rewrite drain_equation_1. unfold drain_unfold_clause_1, inspect.
  assert (∀ (o : option nat) (e : indexOf boundary buffer = o),
            match o as o1
                  return (indexOf boundary buffer = o1 → list T * jsstring)
            with
            | Some n => λ _,
                (emit JSON_parse (take n buffer)
                 ++ (drain JSON_parse (drop (n + 2) buffer)).1,
                 (drain JSON_parse (drop (n + 2) buffer)).2)
            | None => λ _, ([], buffer)
            end e
            = match o with
              | None => ([], buffer)
              | Some i =>
                  let rest := drain JSON_parse (drop (i + 2) buffer) in
                  (emit JSON_parse (take i buffer) ++ rest.1, rest.2)
              end) as G by (by intros []).
  apply G.
Qed.

Lemma split_events_unfold (text : jsstring) :
  split_events text
  = match indexOf boundary text with
    | None => [text]
    | Some i => take i text :: split_events (drop (i + 2) text)
    end.
Proof.
  rewrite split_events_equation_1.
  unfold split_events_unfold_clause_1, inspect.
  assert (∀ (o : option nat) (e : indexOf boundary text = o),
            match o as o1
                  return (indexOf boundary text = o1 → list jsstring)
            with
            | Some n => λ _, take n text :: split_events (drop (n + 2) text)
            | None => λ _, [text]
            end e
            = match o with
              | None => [text]
              | Some i => take i text :: split_events (drop (i + 2) text)
              end) as G by (by intros []).
  apply G.
Qed.

Lemma indexOf_unfold (p s : jsstring) :
  indexOf p s
  = if startsWith p s then Some 0%nat
    else match s with
         | [] => None
         | _ :: s' => S <$> indexOf p s'
         end.
Proof. by destruct s. Qed.

Lemma startsWith_app (p s t : jsstring) :
  startsWith p s = true → startsWith p (s ++ t) = true.
Proof.
  revert s. induction p as [|a p IH]; intros [|b s]; simpl; try done.
  intros [Hab Hp]%andb_true_iff. rewrite Hab. simpl. by apply IH.
Qed.

Lemma startsWith_app_inv (p s t : jsstring) :
  startsWith p (s ++ t) = true → (length p ≤ length s)%nat →
  startsWith p s = true.
Proof.
  revert s. induction p as [|a p IH]; intros [|b s]; simpl; try done; try lia.
  intros [Hab Hp]%andb_true_iff Hlen. rewrite Hab. simpl.
  apply IH; [done|lia].
Qed.

(** The first occurrence in a text stays the first one when the text is
    extended. *)
Lemma indexOf_app (p s t : jsstring) (i : nat) :
  indexOf p s = Some i → indexOf p (s ++ t) = Some i.
Proof.
  revert i. induction s as [|c s IH]; intros i.
  - simpl. destruct (startsWith p []) eqn:E; [|done]. intros [= <-].
    pose proof (startsWith_app p [] t E) as E2. simpl in E2.
    rewrite indexOf_unfold. by rewrite E2.
  - cbn [indexOf app]. destruct (startsWith p (c :: s)) eqn:E.
    + intros [= <-].
      pose proof (startsWith_app p (c :: s) t E) as E2. simpl in E2.
      by rewrite E2.
    + destruct (indexOf p s) as [j|] eqn:Ej; [|done]. intros [= <-].
      destruct (startsWith p (c :: s ++ t)) eqn:E'.
      * apply indexOf_bound in Ej.
        rewrite (startsWith_app_inv p (c :: s) t) in E; [done|done|].
        simpl. lia.
      * by rewrite (IH j).
Qed.

(** Draining a buffer that grows at its end: what the old part yields
    first, then what its rest yields together with the new part. *)
Lemma drain_app (b t : jsstring) :
  drain JSON_parse (b ++ t)
  = ((drain JSON_parse b).1
       ++ (drain JSON_parse ((drain JSON_parse b).2 ++ t)).1,
     (drain JSON_parse ((drain JSON_parse b).2 ++ t)).2).
Proof.
  remember (length b) as n eqn:Hn. revert b Hn.
  induction n as [n IH] using lt_wf_ind. intros b ->.
  rewrite (drain_unfold b).
  destruct (indexOf boundary b) as [i|] eqn:Hi.
  - pose proof (indexOf_bound _ _ _ Hi) as Hb. simpl in Hb.
    rewrite (drain_unfold (b ++ t)), (indexOf_app _ _ t _ Hi). simpl.
    rewrite take_app_le, drop_app_le by lia.
    rewrite (IH (length (drop (i + 2) b))) by (rewrite ?length_drop; lia).
    cbn [fst snd]. by rewrite app_assoc.
  - simpl. by destruct (drain JSON_parse (b ++ t)).
Qed.

Lemma drain_no_boundary (b : jsstring) :
  indexOf boundary (drain JSON_parse b).2 = None.
Proof.
  remember (length b) as n eqn:Hn. revert b Hn.
  induction n as [n IH] using lt_wf_ind. intros b ->.
  rewrite (drain_unfold b).
  destruct (indexOf boundary b) as [i|] eqn:Hi; [|done].
  pose proof (indexOf_bound _ _ _ Hi) as Hb. simpl in *.
  apply (IH (length (drop (i + 2) b))); [|done]. rewrite length_drop. lia.
Qed.

Lemma drain_suffix (b : jsstring) :
  ∃ n, (drain JSON_parse b).2 = drop n b.
Proof.
  remember (length b) as n eqn:Hn. revert b Hn.
  induction n as [n IH] using lt_wf_ind. intros b ->.
  rewrite (drain_unfold b).
  destruct (indexOf boundary b) as [i|] eqn:Hi; [|by exists 0%nat].
  pose proof (indexOf_bound _ _ _ Hi) as Hb. simpl in *.
  destruct (IH (length (drop (i + 2) b))
               ltac:(rewrite length_drop; lia) _ eq_refl) as [k Hk].
  exists (i + 2 + k)%nat. by rewrite Hk, drop_drop.
Qed.

Lemma remove_cr_free (s : jsstring) : Forall (λ c, c ≠ CR) (remove_cr s).
Proof.
  unfold remove_cr. apply Forall_forall. by intros c [? _]%list_elem_of_filter.
Qed.

Lemma remove_cr_id (s : jsstring) :
  Forall (λ c, c ≠ CR) s → remove_cr s = s.
Proof.
  unfold remove_cr. induction 1 as [|c s Hc _ IH]; [done|].
  by rewrite filter_cons_True, IH.
Qed.

(** The outer loop yields what one pass over the whole text yields. *)
Lemma read_loop_drain (d : decoder) (buffer : jsstring) cs :
  Forall (λ c, c ≠ CR) buffer → indexOf boundary buffer = None →
  read_loop JSON_parse decode d buffer cs
  = drain JSON_parse (buffer ++ remove_cr (decoded decode d cs)).
Proof.
  revert d buffer. induction cs as [|value cs IH]; intros d buffer Hcr Hnb.
  - simpl. rewrite app_nil_r, drain_unfold. by rewrite Hnb.
  - simpl. destruct (decode d value) as [text d'].
    assert (remove_cr (buffer ++ text) = buffer ++ remove_cr text) as ->.
    { unfold remove_cr. rewrite filter_app. f_equal. by apply remove_cr_id. }
    assert (remove_cr (text ++ decoded decode d' cs)
            = remove_cr text ++ remove_cr (decoded decode d' cs)) as ->
      by apply filter_app.
    rewrite app_assoc.
    rewrite (drain_app (buffer ++ remove_cr text)
                       (remove_cr (decoded decode d' cs))).
    destruct (drain JSON_parse (buffer ++ remove_cr text)) as [ys b'] eqn:Hd.
    simpl. rewrite IH.
    + by destruct (drain JSON_parse (b' ++ remove_cr (decoded decode d' cs))).
    + destruct (drain_suffix (buffer ++ remove_cr text)) as [k Hk].
      rewrite Hd in Hk. simpl in Hk. subst b'. apply Forall_drop.
      apply Forall_app. split; [done|apply remove_cr_free].
    + pose proof (drain_no_boundary (buffer ++ remove_cr text)) as Hb.
      by rewrite Hd in Hb.
Qed.

(** One pass over a text yields the payloads of all its events but the
    trailing one, which is left as the buffer. *)
Lemma drain_split_events (b : jsstring) :
  split_events b = complete_events b ++ [(drain JSON_parse b).2] ∧
  (drain JSON_parse b).1
  = concat (emit JSON_parse <$> complete_events b).
Proof.
  unfold complete_events.
  remember (length b) as n eqn:Hn. revert b Hn.
  induction n as [n IH] using lt_wf_ind. intros b ->.
  rewrite (drain_unfold b), (split_events_unfold b).
  destruct (indexOf boundary b) as [i|] eqn:Hi; [|done].
  pose proof (indexOf_bound _ _ _ Hi) as Hb. simpl in Hb.
  destruct (IH (length (drop (i + 2) b))
               ltac:(rewrite length_drop; lia) _ eq_refl) as [IH1 IH2].
  set (rest := split_events (drop (i + 2) b)) in *.
  assert (removelast (take i b :: rest) = take i b :: removelast rest) as ->.
  { simpl. destruct rest; [|done]. by destruct (removelast []). }
  cbn [fst snd]. split.
  - simpl. by rewrite <- IH1.
  - simpl. by rewrite IH2.
Qed.

Lemma emit_no_data (ev : jsstring) :
  Forall (λ l, startsWith data_prefix l = false) (split_lines ev) →
  emit JSON_parse ev = [].
Proof.
  intros H. unfold emit, extractData.
  assert (filter (λ l, startsWith data_prefix l = true) (split_lines ev) = [])
    as ->; [|done].
  induction H as [|l ls Hl _ IH]; [done|].
  rewrite filter_cons_False; [done|]. by rewrite Hl.
Qed.

Lemma emit_not_json (ev : jsstring) :
  JSON_parse (extractData ev) = None → emit JSON_parse ev = [].
Proof.
  unfold emit. intros H. destruct (extractData ev); [done|]. by rewrite H.
Qed.

Lemma emit_json (ev : jsstring) v :
  extractData ev ≠ [] → JSON_parse (extractData ev) = Some v →
  emit JSON_parse ev = [v].
Proof.
  unfold emit. intros Hne H. destruct (extractData ev); [done|]. by rewrite H.
Qed.

(** C10, as the code has it: on a stream that is not locked and whose
    reads all succeed, the reader ends without throwing and has yielded,
    in stream order, the parsed data of every event of the text (carriage
    returns dropped) that has data and whose data is JSON, the trailing
    event included; the chunking of the stream plays no part. Data lines
    of one event are joined with newlines; an event without a data line,
    or with data that is not JSON, contributes nothing. When a read
    fails, the events closed by a blank line have been handled in the same
    way and the error is thrown. *)
Theorem readSseJson_yields (st : stream) :
  locked st = false →
  readSseJson JSON_parse decode new_decoder st
  = match end_of_stream st with
    | Closed =>
        (concat (emit JSON_parse <$>
                   split_events
                     (remove_cr (decoded decode new_decoder (chunks st)))),
         Return tt)
    | Errored =>
        (concat (emit JSON_parse <$>
                   complete_events
                     (remove_cr (decoded decode new_decoder (chunks st)))),
         Throw NetworkError)
    end ∧
  (∀ ev, Forall (λ l, startsWith data_prefix l = false) (split_lines ev) →
         emit JSON_parse ev = []) ∧
  (∀ ev, JSON_parse (extractData ev) = None → emit JSON_parse ev = []) ∧
  (∀ ev v, extractData ev ≠ [] → JSON_parse (extractData ev) = Some v →
           emit JSON_parse ev = [v]) ∧
  (∀ ev l ls,
     filter (λ l, startsWith data_prefix l = true) (split_lines ev) = l :: ls →
     extractData ev
     = trim (join_lines ((λ l, trimStart (drop 5 l)) <$> l :: ls))).
Proof.
  intros Hl. split; [|split; [|split; [|split]]].
  - unfold readSseJson. rewrite Hl.
    rewrite (read_loop_drain new_decoder [] (chunks st)) by done. simpl.
    destruct (drain_split_events
                (remove_cr (decoded decode new_decoder (chunks st))))
      as [H1 H2].
    destruct (drain JSON_parse _) as [ys buffer]. simpl in *.
    destruct (end_of_stream st).
    + rewrite H1, fmap_app, concat_app, <- H2. simpl.
      by rewrite app_nil_r.
    + by rewrite H2.
  - apply emit_no_data.
  - apply emit_not_json.
  - apply emit_json.
  - intros ev l ls H. unfold extractData. by rewrite H.
Qed.

End SseFacts.

Section SseWitnesses.

Import Sse.

(** A reader for the examples: bytes are decoded one to one, and only
    payloads that open with a brace count as JSON. *)
Local Abbreviation ascii_decode :=
  (λ (_ : unit) (value : list Byte.byte), (Byte.to_N <$> value, tt)).

Local Abbreviation braces_only :=
  (λ s : jsstring, match s with 123%N :: _ => Some s | _ => None end).

(** ["data: {"], a newline, ["data:}"], ["\r\n\r\n"], ["data: x"] in two
    chunks that cut the blank line. *)
Local Abbreviation two_chunks :=
  [ String.list_byte_of_string "data: {" ++ [Byte.x0a]
      ++ String.list_byte_of_string "data:}" ++ [Byte.x0d; Byte.x0a; Byte.x0d];
    [Byte.x0a] ++ String.list_byte_of_string "data: x" ].

(** Two data lines with a comment line between them: joined by a newline,
    the indentation after the colon dropped. *)
Example extractData_joins_lines :
  extractData [100; 97; 116; 97; 58; 32; 49; 10; 58; 120; 10;
               100; 97; 116; 97; 58; 50; 32]%N
  = [49; 10; 50]%N.
Proof. reflexivity. Qed.

Lemma readSseJson_yields_witness :
  readSseJson braces_only ascii_decode tt
    {| locked := false; chunks := two_chunks; end_of_stream := Closed |}
  = ([[123; 10; 125]%N], Return tt).
Proof.
  destruct (readSseJson_yields braces_only ascii_decode tt
              {| locked := false; chunks := two_chunks;
                 end_of_stream := Closed |} eq_refl) as [H _].
  etrans; [exact H|]. vm_compute. reflexivity.
Defined.

(** C10 fails as stated: when a read of the stream fails, the generator
    throws, after it has yielded the event that was complete. *)
Lemma readSseJson_throws_on_read_error :
  readSseJson braces_only ascii_decode tt
    {| locked := false; chunks := two_chunks; end_of_stream := Errored |}
  = ([[123; 10; 125]%N], Throw NetworkError) ∧
  (readSseJson braces_only ascii_decode tt
     {| locked := false; chunks := two_chunks; end_of_stream := Errored |}).2
  ≠ Return tt.
Proof. split; [vm_compute; reflexivity|]. vm_compute. discriminate. Qed.

End SseWitnesses.

(** * Further properties of the modelled code *)

(** ** Derived parameters *)

Section ManageMore.

Import Manage.

Lemma py_int_mono (x y : Q) : (x <= y)%Q → py_int x ≤ py_int y.
Proof.
  intros Hxy. unfold py_int.
  destruct (Qle_bool 0 x) eqn:Hx, (Qle_bool 0 y) eqn:Hy.
  - by apply Qfloor_resp_le.
  - apply Qle_bool_iff in Hx. apply Qle_bool_false in Hy.
    exfalso. apply (Qlt_irrefl 0).
    apply (Qle_lt_trans _ y); [|done]. by apply (Qle_trans _ x).
  - apply Qle_bool_false in Hx. apply Qle_bool_iff in Hy.
    apply (Z.le_trans _ 0).
    + change 0 with (Qceiling 0). apply Qceiling_resp_le. by apply Qlt_le_weak.
    + change 0 with (Qfloor 0). by apply Qfloor_resp_le.
  - by apply Qceiling_resp_le.
Qed.

(** Every derived number stays in the range the plan lists for it: the
    detector batch in 1..4, the recognizer batch eight times the detector
    batch (8..32), the prefetch queue in 4..16, the workers in 2..6. *)
Theorem optimal_params_ranges (h : hw) :
  1 ≤ det_batch (optimal_params h) ≤ 4 ∧
  rec_batch (optimal_params h) = 8 * det_batch (optimal_params h) ∧
  4 ≤ prefetch (optimal_params h) ≤ 16 ∧
  2 ≤ workers (optimal_params h) ≤ 6.
Proof.
  unfold optimal_params, batch_sizes.
  repeat match goal with
  | |- context [Qle_bool ?a ?b] => destruct (Qle_bool a b)
  end; simpl; lia.
Qed.

(** More cores never give fewer workers, and more available RAM never
    gives a shorter prefetch queue. *)
Theorem workers_prefetch_monotone (h1 h2 : hw) :
  (default 8 (cpu_cores h1) ≤ default 8 (cpu_cores h2) →
   workers (optimal_params h1) ≤ workers (optimal_params h2)) ∧
  ((default 8%Q (ram_gb h1) <= default 8%Q (ram_gb h2))%Q →
   prefetch (optimal_params h1) ≤ prefetch (optimal_params h2)).
Proof.
  split.
  - intros Hc. rewrite !optimal_params_workers. unfold clamp.
    assert (default 8 (cpu_cores h1) / 2 ≤ default 8 (cpu_cores h2) / 2)
      by (apply Z.div_le_mono; lia).
    lia.
  - intros Hr. unfold optimal_params.
    destruct (batch_sizes _), (batch_sizes _). simpl.
    assert (py_int (default 8%Q (ram_gb h1) / (1 # 2))
            ≤ py_int (default 8%Q (ram_gb h2) / (1 # 2))); [|lia].
    apply py_int_mono. unfold Qdiv. apply Qmult_le_compat_r; [done|].
    discriminate.
Qed.

Lemma workers_prefetch_monotone_witness :
  workers (optimal_params {| gpu_vram_gb := None; ram_gb := None;
                             cpu_cores := Some 4 |})
  ≤ workers (optimal_params {| gpu_vram_gb := None; ram_gb := None;
                               cpu_cores := Some 16 |}).
Proof.
  destruct (workers_prefetch_monotone
              {| gpu_vram_gb := None; ram_gb := None; cpu_cores := Some 4 |}
              {| gpu_vram_gb := None; ram_gb := None; cpu_cores := Some 16 |})
    as [H _].
  apply H. simpl. lia.
Defined.

(** Detection followed by the calculation: a detected profile has all
    three keys, so none of the defaults of the calculation is used, its
    core count is never 0, and a machine whose GPU query fails gets the
    smallest batch sizes. *)
Theorem detect_then_calculate (p : probes) (h : hw) :
  detect_hardware p = Ok h →
  (∃ v r c, gpu_vram_gb h = Some v ∧ ram_gb h = Some r ∧
            cpu_cores h = Some c ∧ c ≠ 0) ∧
  (∀ e, nvidia_smi p = Raise e →
        det_batch (optimal_params h) = 1 ∧ rec_batch (optimal_params h) = 8).
Proof.
  unfold detect_hardware. intros H.
  destruct (psutil_available p) as [avail|e0];
    [|destruct (is_ImportError e0); [|done]];
    injection H as <-; (split; [do 3 eexists; repeat split; try done|]).
  - unfold py_or. destruct (cpu_count p) as [n|]; [|done].
    by destruct (Z.eqb_spec n 0).
  - by intros e ->.
  - unfold py_or. destruct (cpu_count p) as [n|]; [|done].
    by destruct (Z.eqb_spec n 0).
  - by intros e ->.
Qed.

Lemma detect_then_calculate_witness :
  det_batch (optimal_params {| gpu_vram_gb := Some 0%Q; ram_gb := Some 8%Q;
                               cpu_cores := Some 4 |}) = 1 ∧
  rec_batch (optimal_params {| gpu_vram_gb := Some 0%Q; ram_gb := Some 8%Q;
                               cpu_cores := Some 4 |}) = 8.
Proof.
  destruct (detect_then_calculate
              {| nvidia_smi := Raise FileNotFoundError;
                 psutil_available := Raise ImportError;
                 cpu_count := None |}
              {| gpu_vram_gb := Some 0%Q; ram_gb := Some 8%Q;
                 cpu_cores := Some 4 |} eq_refl) as [_ H].
  apply (H FileNotFoundError). reflexivity.
Defined.

Section SafePredictFacts.

Context {R : Type}.
Variable mentions_oom : string → bool.

(** The retry policy of [safe_predict]: [predict] runs once or twice; it
    runs twice, and the environment is changed, exactly when the first
    call failed with a [RuntimeError] that mentions out of memory and the
    memory could be released; the environment then asks for batch sizes 1
    and 4 and is otherwise as before; a result comes from the last call
    made, and any other failure of the first call is raised unchanged. *)
Theorem safe_predict_retries_once (environ : gmap string string)
    (first second : predict_outcome R) (cleanup : py_result unit) :
  let retried :=
    match first, cleanup with
    | PredictFailed e, Ok _ => is_runtime_error e && mentions_oom (message e)
    | _, _ => false
    end in
  let '(out, environ', calls) :=
    safe_predict mentions_oom environ first cleanup second in
  calls = (if retried then 2 else 1)%nat ∧
  (if retried
   then environ' !! "EXAMPAPER_DET_BATCH_SIZE" = Some "1" ∧
        environ' !! "EXAMPAPER_REC_BATCH_SIZE" = Some "4" ∧
        (∀ k, k ≠ "EXAMPAPER_DET_BATCH_SIZE" →
              k ≠ "EXAMPAPER_REC_BATCH_SIZE" → environ' !! k = environ !! k)
   else environ' = environ) ∧
  (∀ r, out = SafeResult r →
        if retried then second = Predicted r else first = Predicted r) ∧
  (∀ e, first = PredictFailed e →
        is_runtime_error e && mentions_oom (message e) = false →
        out = SafeRaised e).
Proof.
  unfold safe_predict.
  destruct first as [r1|e1]; simpl.
  - repeat split; try done. by intros r [= ->].
  - destruct (is_runtime_error e1 && mentions_oom (message e1)) eqn:Hoom.
    + destruct cleanup as [[]|x]; simpl.
      * repeat split; try done.
        -- by rewrite lookup_insert_ne, lookup_insert_eq.
        -- by rewrite lookup_insert_eq.
        -- intros k H1 H2. by rewrite !lookup_insert_ne.
        -- intros r. by destruct second as [r2|e2]; intros [= ->].
        -- intros e [= <-]. congruence.
      * repeat split; try done. intros e [= <-]. congruence.
    + destruct cleanup as [[]|x]; simpl; repeat split; try done;
        by intros e [= <-].
Qed.

End SafePredictFacts.

End ManageMore.

(** ** The hybrid scheduler under all schedules *)

Section HybridMore.

Import Hybrid.

Context {pipeline : Type}.
Variable int_of_string : string → option Z.
Variable float_of_string : string → option pyfloat.
Variable TIMEOUT_MAX : Q.
Variable environ : gmap string string.

Abbreviation tstep' :=
  (acquire_step (pipeline := pipeline) float_of_string TIMEOUT_MAX environ).
Abbreviation gstep' :=
  (step (pipeline := pipeline) float_of_string TIMEOUT_MAX environ).
Abbreviation grun' :=
  (run (pipeline := pipeline) float_of_string TIMEOUT_MAX environ).

Lemma count_zero_lookup f (l : list (pc (pipeline := pipeline))) i p :
  count f l = 0%nat → l !! i = Some p → f p = false.
Proof.
  revert i. induction l as [|q l IH]; intros i; [done|].
  rewrite count_cons. destruct i as [|i]; simpl.
  - intros H [= ->]. destruct (f p); simpl in *; [lia|done].
  - intros H Hi. apply (IH i); [|done]. lia.
Qed.

(** A thread step leaves the GPU pipeline alone and never unsets the CPU
    pipeline; it sets the CPU pipeline only from inside the CPU scope. *)
Lemma acquire_step_pipelines m p c m' p' :
  tstep' m p c = Some (m', p') →
  gpu_pipeline m' = gpu_pipeline m ∧
  (is_Some (cpu_pipeline m) → is_Some (cpu_pipeline m')) ∧
  (in_scope Cpu p = false → cpu_pipeline m' = cpu_pipeline m).
Proof.
  unfold acquire_step, try_acquire, release.
  destruct p as [| | | | | | |t ?|]; destruct c as [| |[]|[]|];
    try discriminate; simpl; repeat case_match; try discriminate;
    intros [= <- <-];
    repeat match goal with
    | H : Some _ = Some _ |- _ => injection H as <-
    end;
    try destruct t; simpl; repeat split; try done; eauto.
Qed.

(** Whatever the threads do, the GPU pipeline of the manager stays the
    one it had, and a CPU pipeline that exists is never taken away. *)
Theorem pipelines_kept (s0 s : state (pipeline := pipeline))
    (sched : list (nat * choice)) :
  run float_of_string TIMEOUT_MAX environ s0 sched = Some s →
  gpu_pipeline (mgr s) = gpu_pipeline (mgr s0) ∧
  (is_Some (cpu_pipeline (mgr s0)) → is_Some (cpu_pipeline (mgr s))).
Proof.
  revert s0. induction sched as [|[i c] sched IH]; intros s0 H.
  - by injection H as <-.
  - simpl in H. destruct (gstep' s0 i c) as [s1|] eqn:Hs; [|done].
    simpl in H. destruct (IH _ H) as [IH1 IH2].
    unfold step in Hs.
    destruct (threads s0 !! i) as [p|]; [|done]. simpl in Hs.
    destruct (tstep' (mgr s0) p c) as [[m' p']|] eqn:Ht; [|done].
    injection Hs as <-. simpl in *.
    destruct (acquire_step_pipelines _ _ _ _ _ Ht) as (H1 & H2 & _).
    split; [congruence|auto].
Qed.

(** A single caller never leaves the first tier: it is outside a call or
    in a body on the GPU pipeline, the CPU lock keeps all its permits and
    the CPU pipeline is never built. *)
Theorem single_caller_uses_gpu m g sched s :
  init int_of_string environ = Ok m →
  grun' (initial m g 1) sched = Some s →
  ∃ p, threads s = [p] ∧
       (p = AtEntry ∨ (∃ r, p = Returned r) ∨ p = InBody Tier1 g) ∧
       cpu_sem (mgr s) = cpu_sem m ∧ cpu_pipeline (mgr s) = None.
Proof.
  intros Hinit.
  assert (gpu_sem m = 1%nat ∧ cpu_pipeline m = None) as [Hg Hc].
  { unfold init in Hinit. destruct (cpu_ocr_slots _ _); [|done].
    destruct (_ <? _); [done|]. by injection Hinit as <-. }
  assert (∀ s0 : state,
    (∃ p, threads s0 = [p] ∧
          ((p = AtEntry ∨ (∃ r, p = Returned r)) ∧ gpu_sem (mgr s0) = 1%nat
           ∨ p = InBody Tier1 g ∧ gpu_sem (mgr s0) = 0%nat) ∧
          gpu_pipeline (mgr s0) = g ∧
          cpu_sem (mgr s0) = cpu_sem m ∧ cpu_pipeline (mgr s0) = None) →
    grun' s0 sched = Some s →
    ∃ p, threads s = [p] ∧
         (p = AtEntry ∨ (∃ r, p = Returned r) ∨ p = InBody Tier1 g) ∧
         cpu_sem (mgr s) = cpu_sem m ∧ cpu_pipeline (mgr s) = None) as Hgen.
  { induction sched as [|[i c] sched IH]; intros s0 Hinv H.
    - injection H as <-. destruct Hinv as (p & Hp & Hcase & _ & Hcs & Hcp).
      exists p. split; [done|]. split; [|done].
      destruct Hcase as [[[->|Hr] _]|[-> _]]; auto.
    - simpl in H. destruct (gstep' s0 i c) as [s1|] eqn:Hs; [|done].
      simpl in H. apply (IH s1); [|done]. clear IH H.
      destruct Hinv as (p & Hp & Hcase & Hgp & Hcs & Hcp).
      unfold step in Hs. rewrite Hp in Hs.
      destruct i as [|i]; [|done]. simpl in Hs.
      destruct (tstep' (mgr s0) p c) as [[m' p']|] eqn:Ht; [|done].
      injection Hs as <-. simpl. exists p'. split; [done|].
      destruct s0 as [[gp cp gs cs] ths]. simpl in *. subst.
      destruct Hcase as [[[->|[r ->]] ->]|[-> ->]];
        destruct c as [| |[]|[]|]; try discriminate;
        simpl in Ht; unfold try_acquire, release in Ht; simpl in Ht;
        injection Ht as <- <-; simpl; repeat split; eauto. }
  intros Hrun. apply (Hgen (initial m g 1)); [|done].
  exists AtEntry. simpl. repeat split; auto.
Qed.

(** Every statement of [acquire] can run, except the blocking acquisition
    while the GPU permit is out. *)
Lemma acquire_step_enabled m p :
  p ≠ AtGpuBlocking ∨ gpu_sem m ≠ 0%nat →
  ∃ c m' p', tstep' m p c = Some (m', p').
Proof.
  intros H. unfold acquire_step, try_acquire.
  destruct p as [|t0| | | |pipe0| |t pipe0|r]; simpl.
  - exists Go. destruct (gpu_sem m); [|by eauto].
    destruct (cpu_fallback_timeout float_of_string environ); eauto.
  - destruct (cpu_sem m) eqn:E; [|exists Go; eauto].
    destruct t0 as [q| | |]; simpl.
    + destruct (Qle_bool q 0) eqn:Hq0, (Qle_bool q TIMEOUT_MAX) eqn:Hq;
        simpl; solve [exists TimedOut; eauto | exists Go; simpl; eauto].
    + exists Go. eauto.
    + exists TimedOut. eauto.
    + exists Go. eauto.
  - exists Go. destruct (cpu_pipeline m); eauto.
  - exists (Created (Raise ValueError)). eauto.
  - exists Go. eauto.
  - exists Go. eauto.
  - exists Go. destruct (gpu_sem m); [|by eauto]. by destruct H.
  - exists (BodyDone (Ok tt)). eauto.
  - exists Go. eauto.
Qed.

(** No reachable state is stuck: each thread can take a step of its own,
    unless it waits in the blocking acquisition of the GPU lock, and then
    the thread holding the permit is in its body and can leave it. *)
Theorem no_deadlock m g n sched s i p :
  init int_of_string environ = Ok m →
  grun' (initial m g n) sched = Some s →
  threads s !! i = Some p →
  (∃ c s', gstep' s i c = Some s') ∨
  (p = AtGpuBlocking ∧
   ∃ j t pipe s', threads s !! j = Some (InBody t pipe) ∧ device_of t = Gpu ∧
                  gstep' s j (BodyDone (Ok tt)) = Some s').
Proof.
  intros Hinit Hrun Hi.
  destruct (init_permits _ _ _ Hinit) as [Hg _].
  pose proof (reachable_balance _ _ _ Gpu _ _ _ _ _ Hrun) as Hbal.
  simpl in Hbal. rewrite Hg in Hbal.
  assert (p ≠ AtGpuBlocking ∨ gpu_sem (mgr s) ≠ 0%nat →
          ∃ c s', gstep' s i c = Some s') as Hown.
  { intros Hfree.
    destruct (acquire_step_enabled (mgr s) p Hfree) as (c & m' & p' & Ht).
    exists c. unfold step. rewrite Hi. simpl. rewrite Ht. simpl. eauto. }
  destruct (gpu_sem (mgr s)) as [|v] eqn:Hsem; [|by left; apply Hown; right].
  destruct p as [|t0| | | |pipe0| |t0 pipe0|r];
    try (by left; apply Hown; left).
  right. split; [done|].
  assert (0 < count (in_scope Gpu) (threads s))%nat as Hpos by lia.
  destruct (count_pos _ _ Hpos) as (j & q & Hj & Hq).
  destruct (in_scope_gpu_body _ Hq) as (t & pipe & -> & Ht).
  exists j, t, pipe. eexists. split; [done|]. split; [done|].
  unfold step. rewrite Hj. simpl. done.
Qed.

(** With a CPU lock of no permits the CPU path is closed: no thread ever
    holds a CPU permit, every body runs on the GPU pipeline, and the CPU
    pipeline is never built. *)
Theorem no_cpu_slots_no_cpu m g n sched s :
  init int_of_string environ = Ok m → cpu_sem m = 0%nat →
  grun' (initial m g n) sched = Some s →
  count (in_scope Cpu) (threads s) = 0%nat ∧
  (∀ i t pipe, threads s !! i = Some (InBody t pipe) → device_of t = Gpu) ∧
  cpu_pipeline (mgr s) = None.
Proof.
  intros Hinit Hzero Hrun.
  pose proof (reachable_balance _ _ _ Cpu _ _ _ _ _ Hrun) as Hbal.
  simpl in Hbal. rewrite Hzero in Hbal.
  assert (count (in_scope Cpu) (threads s) = 0%nat) as Hcount by lia.
  split; [done|]. split.
  - intros i t pipe Hi.
    pose proof (count_zero_lookup _ _ _ _ Hcount Hi) as Hf.
    by destruct t.
  - assert (cpu_pipeline m = None) as Hc.
    { unfold init in Hinit. destruct (cpu_ocr_slots _ _); [|done].
      destruct (_ <? _); [done|]. by injection Hinit as <-. }
    assert (∀ s0 : state,
      (sem Cpu (mgr s0) + count (in_scope Cpu) (threads s0) = 0)%nat →
      grun' s0 sched = Some s →
      cpu_pipeline (mgr s) = cpu_pipeline (mgr s0)) as Hgen.
    { clear Hrun Hbal Hcount. induction sched as [|[i c] sched IH];
        intros s0 Hb H.
      - by injection H as <-.
      - simpl in H. destruct (gstep' s0 i c) as [s1|] eqn:Hs; [|done].
        simpl in H.
        pose proof (step_balance _ _ _ Cpu _ _ _ _ Hs) as Hb1.
        rewrite (IH s1) by (done || lia).
        unfold step in Hs.
        destruct (threads s0 !! i) as [p|] eqn:Hp; [|done]. simpl in Hs.
        destruct (tstep' (mgr s0) p c) as [[m' p']|] eqn:Ht; [|done].
        injection Hs as <-. simpl.
        destruct (acquire_step_pipelines _ _ _ _ _ Ht) as (_ & _ & H3).
        apply H3. eapply count_zero_lookup; [|done]. lia. }
    rewrite (Hgen (initial m g n)); [done| |done].
    unfold initial. simpl. rewrite count_replicate by done. lia.
Qed.

End HybridMore.

Section HybridMoreWitnesses.

Import Hybrid.

(** A manager after [__init__] with an empty environment, and one after
    [__init__] with [EXAMPAPER_CPU_OCR_SLOTS=0]. *)
Local Abbreviation two_slots :=
  ({| gpu_pipeline := @None nat; cpu_pipeline := None;
      gpu_sem := 1; cpu_sem := 2 |}).

Local Abbreviation no_slots :=
  ({| gpu_pipeline := @None nat; cpu_pipeline := None;
      gpu_sem := 1; cpu_sem := 0 |}).

Local Abbreviation zero_environ :=
  (<["EXAMPAPER_CPU_OCR_SLOTS" := "0"]> ∅ : gmap string string).

(** The largest timeout of a 64-bit Linux build, in seconds. *)
Local Abbreviation max_wait := (9223372036 # 1)%Q.

Local Abbreviation only_zero :=
  (λ s : string, if String.eqb s "0" then Some 0%Z else None).

(** The first thread takes the GPU; the second finds no CPU permit within
    the timeout and waits for the GPU. *)
Local Abbreviation gpu_then_wait :=
  ([(0, Go); (1, Go); (1, TimedOut)]%nat
   : list (nat * choice (pipeline := nat))).

Lemma pipelines_kept_witness :
  ∃ s, run (λ _, None) max_wait (∅ : gmap string string)
           (initial two_slots (Some 7%nat) 3)
           [(0, Go); (1, Go); (1, Go); (1, Go); (1, Created (Ok 9%nat))]%nat = Some s ∧
       gpu_pipeline (mgr s) = Some 7%nat.
Proof.
  assert (∃ s, run (λ _, None) max_wait (∅ : gmap string string)
                 (initial two_slots (Some 7%nat) 3)
                 [(0, Go); (1, Go); (1, Go); (1, Go);
                  (1, Created (Ok 9%nat))]%nat = Some s) as [s Hrun]
    by (eexists; vm_compute; reflexivity).
  exists s. split; [exact Hrun|].
  destruct (pipelines_kept _ _ _ _ _ _ Hrun) as [H _]. exact H.
Defined.

Lemma single_caller_uses_gpu_witness :
  ∃ s, run (λ _, None) max_wait (∅ : gmap string string)
           (initial two_slots (Some 7%nat) 1) [(0, Go)]%nat = Some s ∧
       ∃ p, threads s = [p] ∧
            (p = AtEntry ∨ (∃ r, p = Returned r)
             ∨ p = InBody Tier1 (Some 7%nat)) ∧
            cpu_sem (mgr s) = 2%nat ∧ cpu_pipeline (mgr s) = None.
Proof.
  assert (init (pipeline := nat) (λ _, None) (∅ : gmap string string)
          = Ok two_slots) as Hinit by (vm_compute; reflexivity).
  eexists. split; [vm_compute; reflexivity|].
  apply (single_caller_uses_gpu (λ _, None) (λ _, None) max_wait _ _ (Some 7%nat)
           [(0, Go)]%nat _ Hinit ltac:(vm_compute; reflexivity)).
Defined.

Lemma no_deadlock_witness :
  ∃ s, run (λ _, None) max_wait zero_environ
           (initial no_slots (Some 7%nat) 2) gpu_then_wait = Some s ∧
       ((∃ c s', step (λ _, None) max_wait zero_environ s 1%nat c = Some s') ∨
        (AtGpuBlocking = AtGpuBlocking (pipeline := nat) ∧
         ∃ j t pipe s',
           threads s !! j = Some (InBody t pipe) ∧ device_of t = Gpu ∧
           step (λ _, None) max_wait zero_environ s j (BodyDone (Ok tt)) = Some s')).
Proof.
  assert (init (pipeline := nat) only_zero zero_environ = Ok no_slots)
    as Hinit by (vm_compute; reflexivity).
  eexists. split; [vm_compute; reflexivity|].
  apply (no_deadlock only_zero (λ _, None) max_wait zero_environ _ (Some 7%nat) 2
           gpu_then_wait _ 1%nat AtGpuBlocking Hinit
           ltac:(vm_compute; reflexivity) ltac:(vm_compute; reflexivity)).
Defined.

Lemma no_cpu_slots_no_cpu_witness :
  ∃ s, run (λ _, None) max_wait zero_environ
           (initial no_slots (Some 7%nat) 2) gpu_then_wait = Some s ∧
       count (in_scope Cpu) (threads s) = 0%nat ∧
       cpu_pipeline (mgr s) = None.
Proof.
  assert (init (pipeline := nat) only_zero zero_environ = Ok no_slots)
    as Hinit by (vm_compute; reflexivity).
  eexists. split; [vm_compute; reflexivity|].
  destruct (no_cpu_slots_no_cpu only_zero (λ _, None) max_wait zero_environ _
              (Some 7%nat) 2 gpu_then_wait _ Hinit eq_refl
              ltac:(vm_compute; reflexivity)) as (H1 & _ & H3).
  split; [exact H1 | exact H3].
Defined.

End HybridMoreWitnesses.

(** ** The task store: snapshots, starts and polls *)

Section TaskStoreMore.

Import TaskStore.

(** What a positional [forEach] over a response leaves at each place. *)
Lemma foldl_imap_lookup {B} (f : Step → B → Step) (l : list Step)
    (resp : list B) (i : nat) :
  foldl (λ acc ir,
           match acc !! ir.1 with
           | Some x => <[ir.1 := f x ir.2]> acc
           | None => acc
           end)
        l (imap (λ idx r, (idx, r)) resp) !! i
  = match resp !! i with
    | Some r => (λ x, f x r) <$> l !! i
    | None => l !! i
    end.
Proof.
  revert i.
  induction resp as [|r resp IH] using rev_ind; intros i; [done|].
  rewrite imap_app, foldl_app. simpl. rewrite Nat.add_0_r.
  set (acc := foldl _ l (imap _ resp)) in *.
  destruct (decide (i = length resp)) as [->|Hne].
  - rewrite lookup_app_r, Nat.sub_diag by done. simpl.
    specialize (IH (length resp)).
    rewrite (lookup_ge_None_2 resp) in IH by done.
    destruct (acc !! length resp) as [x|] eqn:Hx.
    + rewrite list_lookup_insert_eq by (by apply lookup_lt_Some in Hx).
      by rewrite <- IH.
    + by rewrite Hx, <- IH.
  - assert ((resp ++ [r]) !! i = resp !! i) as ->.
    { destruct (decide (i < length resp)%nat).
      - by rewrite lookup_app_l.
      - rewrite !lookup_ge_None_2; [done|lia|].
        rewrite length_app. simpl. lia. }
    rewrite <- IH.
    destruct (acc !! length resp); [|done].
    by rewrite list_lookup_insert_ne.
Qed.

Lemma updateSteps_lookup (l : list Step) (d : list StepData) (i : nat) :
  updateSteps l d !! i
  = match d !! i with
    | Some dd => (λ x, update_step x dd) <$> l !! i
    | None => l !! i
    end.
Proof. apply (foldl_imap_lookup update_step). Qed.

Lemma apply_upload_lookup (l : list Step) (rs : list RespStep) (i : nat) :
  apply_upload l rs !! i
  = match rs !! i with
    | Some r => (λ x, upload_step x r) <$> l !! i
    | None => l !! i
    end.
Proof. apply (foldl_imap_lookup upload_step). Qed.

(** A step snapshot can be applied again without effect (a replayed
    event changes nothing); it keeps the number of steps and what each
    step is, and leaves alone the steps it has no entry for. *)
Theorem updateSteps_replay (l : list Step) (d : list StepData) :
  updateSteps (updateSteps l d) d = updateSteps l d ∧
  length (updateSteps l d) = length l ∧
  (∀ i x, l !! i = Some x →
     ∃ x', updateSteps l d !! i = Some x' ∧ index x' = index x ∧
           name x' = name x ∧ title x' = title x ∧ desc x' = desc x ∧
           icon x' = icon x ∧ (d !! i = None → x' = x)).
Proof.
  split; [|split].
  - apply list_eq. intros i. rewrite !updateSteps_lookup.
    destruct (d !! i) as [dd|]; [|done]. by destruct (l !! i).
  - apply Nat.le_antisymm.
    + destruct (decide (length (updateSteps l d) ≤ length l)%nat); [done|].
      assert (is_Some (updateSteps l d !! length l)) as [x Hx]
        by (apply lookup_lt_is_Some; lia).
      rewrite updateSteps_lookup, (lookup_ge_None_2 l) in Hx by done.
      by destruct (d !! length l).
    + destruct (decide (length l ≤ length (updateSteps l d))%nat); [done|].
      assert (is_Some (l !! length (updateSteps l d))) as [x Hx]
        by (apply lookup_lt_is_Some; lia).
      pose proof (updateSteps_lookup l d (length (updateSteps l d))) as H.
      rewrite (lookup_ge_None_2 (updateSteps l d)), Hx in H by done.
      by destruct (d !! _).
  - intros i x Hx. rewrite updateSteps_lookup, Hx.
    destruct (d !! i) as [dd|]; simpl; eauto 10.
    eexists. repeat split; eauto. done.
Qed.

(** A snapshot that covers every step decides all that can change in a
    step: applied after the reset of [restartFromStep] it gives the same
    steps as without that reset, so the counts the reset had cleared are
    the server's again. *)
Theorem snapshot_after_restart (l : list Step) (rs : list RespStep)
    (d : list StepData) :
  (length l ≤ length d)%nat →
  updateSteps (apply_reset l rs) d = updateSteps l d.
Proof.
  intros Hlen. apply list_eq. intros i.
  rewrite !updateSteps_lookup, apply_reset_lookup.
  destruct (d !! i) as [dd|] eqn:Hd.
  - destruct (rs !! i), (l !! i); done.
  - apply lookup_ge_None in Hd.
    rewrite (lookup_ge_None_2 l) by lia. by destruct (rs !! i).
Qed.

Lemma findIndex_none {A} (f : A → bool) (l : list A) :
  existsb f l = false → findIndex f l = -1.
Proof.
  induction l as [|x l IH]; [done|]. simpl.
  intros [Hx Hl]%orb_false_iff. by rewrite Hx, (IH Hl).
Qed.

Lemma findIndex_nonneg {A} (f : A → bool) (l : list A) :
  -1 ≤ findIndex f l.
Proof.
  induction l as [|x l IH]; [done|]. simpl.
  destruct (f x); [lia|]. destruct (Z.ltb_spec (findIndex f l) 0); lia.
Qed.

Lemma findIndex_insert {A} (f : A → bool) (l : list A) (k : nat) (y : A) :
  existsb f l = false → (k < length l)%nat → f y = true →
  findIndex f (<[k := y]> l) = Z.of_nat k.
Proof.
  revert k. induction l as [|x l IH]; intros k Hno Hk Hy; [simpl in Hk; lia|].
  simpl in Hno. apply orb_false_iff in Hno as [Hx Hl].
  destruct k as [|k]; simpl.
  - by rewrite Hy.
  - rewrite Hx, (IH k) by (done || simpl in Hk; lia).
    destruct (Z.ltb_spec (Z.of_nat k) 0); lia.
Qed.

Lemma existsb_insert_false {A} (f : A → bool) (l : list A) (k : nat) (y : A) :
  existsb f l = false → f y = false → existsb f (<[k := y]> l) = false.
Proof.
  revert k. induction l as [|x l IH]; intros k Hno Hy; [done|].
  simpl in Hno. apply orb_false_iff in Hno as [Hx Hl].
  destruct k as [|k]; simpl.
  - by rewrite Hy.
  - by rewrite Hx, IH.
Qed.

(** A start that [canStartStep] allows and the server accepts: the step is
    the current step, the store is busy, and [canStartStep] refuses every
    step until the store leaves that state. *)
Theorem startStep_accepted (s : store) (step x : Step) (k : Z) (b : bool) :
  canStartStep s step = Return true →
  task_of s ≠ None →
  js_index (steps s) k = Some x →
  let '(s', _, r) := startStep s k b (Return tt) in
  r = Return tt ∧
  js_index (steps s') k = Some (with_status x running) ∧
  currentStepIndex s' = k ∧
  isBusy s' = true ∧
  ∀ y, canStartStep s' y = Return false.
Proof.
  intros Hcan Ht Hx.
  assert (existsb is_running (steps s) = false) as Hno.
  { unfold canStartStep in Hcan. destruct (isBusy s); [done|].
    destruct (negb (is_pending step)); [done|].
    by destruct (existsb is_running (steps s)). }
  unfold startStep, set_step_status.
  destruct (task_of s) as [t|]; [|done]. simpl. rewrite Hx.
  apply js_index_Some in Hx as [Hk Hx].
  assert (Z.to_nat k < length (steps s))%nat by (by apply lookup_lt_Some in Hx).
  assert (js_index (<[Z.to_nat k := with_status x running]> (steps s)) k
          = Some (with_status x running)) as Hx'.
  { apply js_index_Some. split; [done|]. by apply list_lookup_insert_eq. }
  simpl. rewrite Hx'. simpl. repeat split; try done.
  unfold currentStepIndex. simpl.
  rewrite findIndex_insert by done. lia.
Qed.

(** A start that the server rejects does not block a manual task: the
    call ends without an error, the step is failed, the store is paused,
    and every pending step may be started. *)
Theorem startStep_rejected (s : store) (x : Step) (k : Z) (b : bool)
    (e : js_error) :
  mode s = manual →
  existsb is_running (steps s) = false →
  task_of s ≠ None →
  js_index (steps s) k = Some x →
  let '(s', _, r) := startStep s k b (Throw e) in
  r = Return tt ∧
  js_index (steps s') k = Some (with_status x failed) ∧
  task_status s' = paused ∧
  ∀ y, status y = pending → canStartStep s' y = Return true.
Proof.
  intros Hm Hno Ht Hx.
  unfold startStep, set_step_status.
  destruct (task_of s) as [t|]; [|done]. simpl. rewrite Hx.
  apply js_index_Some in Hx as [Hk Hx].
  assert (Z.to_nat k < length (steps s))%nat by (by apply lookup_lt_Some in Hx).
  assert (js_index (<[Z.to_nat k := with_status x running]> (steps s)) k
          = Some (with_status x running)) as Hx'.
  { apply js_index_Some. split; [done|]. by apply list_lookup_insert_eq. }
  simpl. rewrite Hx'. simpl.
  split; [done|]. split; [|split; [done|]].
  - apply js_index_Some. split; [done|].
    rewrite list_insert_insert_eq. by apply list_lookup_insert_eq.
  - intros y Hy. unfold canStartStep, isBusy, is_pending. simpl.
    rewrite Hy, Hm. simpl.
    by rewrite list_insert_insert_eq, existsb_insert_false.
Qed.

(** A poll of a manual task that reports it pending, with a snapshot of
    all steps in which none is running: the store is paused, polling is
    stopped, and every step the snapshot reports pending may be started. *)
Theorem onStatus_pauses_manual (s : store) (d : list StepData) :
  mode s = manual →
  (length (steps s) ≤ length d)%nat →
  Forall (λ dd, sd_status dd ≠ running) d →
  let '(s', fx) := onStatus s (Some d) "pending" in
  task_status s' = paused ∧ fx = [StopPolling; LogStepDone] ∧
  steps s' = updateSteps (steps s) d ∧
  ∀ y, y ∈ steps s' → status y = pending → canStartStep s' y = Return true.
Proof.
  intros Hm Hlen Hd. unfold onStatus. simpl. rewrite Hm.
  assert (existsb is_running (updateSteps (steps s) d) = false) as Hno.
  { apply not_true_is_false. intros Hex.
    apply existsb_exists in Hex as (y & Hy & Hrun).
    apply list_elem_of_In, list_elem_of_lookup in Hy as [i Hi].
    rewrite updateSteps_lookup in Hi.
    destruct (d !! i) as [dd|] eqn:Hdd.
    - destruct (steps s !! i) as [x|]; [|done]. injection Hi as <-.
      apply (Forall_lookup_1 _ _ _ _ Hd) in Hdd.
      unfold is_running in Hrun. simpl in Hrun.
      by destruct (sd_status dd).
    - apply lookup_ge_None in Hdd. apply lookup_lt_Some in Hi. lia. }
  rewrite Hno. repeat split.
  intros y _ Hy. unfold canStartStep, isBusy, is_pending. simpl.
  by rewrite Hy, Hm, Hno.
Qed.

(** After an upload in manual mode that the server accepts, with no step
    reported running, the task has the server's id, the store is paused,
    and every pending step may be started. *)
Theorem uploadFile_manual_ready (s : store) (resp : UploadResponse)
    (api_process : js_result unit) :
  existsb is_running (steps s) = false →
  (∀ rs, up_steps resp = Some rs → Forall (λ r, rs_status r ≠ running) rs) →
  let '(s', _) := uploadFile s manual (Return resp) api_process in
  taskId s' = Some (up_task_id resp) ∧ mode s' = manual ∧
  task_status s' = paused ∧
  ∀ y, status y = pending → canStartStep s' y = Return true.
Proof.
  intros Hno Hrs. unfold uploadFile. simpl.
  set (s3 := match up_steps resp with Some rs => _ | None => _ end).
  assert (taskId s3 = Some (up_task_id resp) ∧ mode s3 = manual ∧
          existsb is_running (steps s3) = false) as (H1 & H2 & H3).
  { unfold s3. destruct (up_steps resp) as [rs|] eqn:E; simpl; [|done].
    repeat split. apply not_true_is_false. intros Hex.
    apply existsb_exists in Hex as (y & Hy & Hrun).
    apply list_elem_of_In, list_elem_of_lookup in Hy as [i Hi].
    rewrite apply_upload_lookup in Hi.
    destruct (rs !! i) as [r|] eqn:Hr.
    - destruct (steps s !! i) as [x|]; [|done]. injection Hi as <-.
      apply (Forall_lookup_1 _ _ _ _ (Hrs _ eq_refl)) in Hr.
      unfold is_running in Hrun. simpl in Hrun. by destruct (rs_status r).
    - assert (existsb is_running (steps s) = true); [|congruence].
      apply existsb_exists. exists y. split; [|done].
      apply list_elem_of_In. by eapply list_elem_of_lookup_2. }
  repeat split; try done.
  intros y Hy. unfold canStartStep, isBusy, is_pending. simpl.
  by rewrite Hy, H2, H3.
Qed.

End TaskStoreMore.

Section TaskStoreMoreWitnesses.

Import TaskStore.

(** A task in manual mode whose first two steps completed, its third
    step, and a snapshot in which the third step has completed too. *)
Local Abbreviation two_completed :=
  {| taskId := Some "t"; task_status := paused; mode := manual;
     steps := apply_upload createDefaultSteps
                [ {| rs_status := completed; rs_artifact_count := Some 3 |};
                  {| rs_status := completed; rs_artifact_count := Some 3 |} ]
  |}.

Local Abbreviation third_step :=
  (default_step 2 "analyze_data" "结构检测"
     "分析题目边界，检测资料分析区域" "ph-tree-structure").

Local Abbreviation entry st :=
  {| sd_status := st; sd_error := None; sd_artifact_count := Some 3%Z;
     sd_progress := None; sd_progress_text := None |}.

Local Abbreviation three_completed :=
  [entry completed; entry completed; entry completed;
   entry pending; entry pending].

Lemma snapshot_after_restart_witness :
  updateSteps
    (apply_reset (steps two_completed)
       [ {| rs_status := completed; rs_artifact_count := Some 3 |};
         {| rs_status := completed; rs_artifact_count := Some 3 |};
         {| rs_status := pending; rs_artifact_count := None |} ])
    three_completed
  = updateSteps (steps two_completed) three_completed.
Proof. apply snapshot_after_restart. simpl. lia. Defined.

Lemma startStep_accepted_witness :
  currentStepIndex (startStep two_completed 2 false (Return tt)).1.1 = 2 ∧
  isBusy (startStep two_completed 2 false (Return tt)).1.1 = true.
Proof.
  assert (task_of two_completed ≠ None) as Htask by discriminate.
  pose proof (startStep_accepted two_completed third_step third_step 2 false
                eq_refl Htask eq_refl) as H.
  revert H. destruct (startStep two_completed 2 false (Return tt))
    as [[s' fx] r].
  intros (_ & _ & Hcur & Hbusy & _). split; [exact Hcur | exact Hbusy].
Defined.

Lemma startStep_rejected_witness :
  task_status (startStep two_completed 2 false (Throw NetworkError)).1.1
  = paused ∧
  canStartStep (startStep two_completed 2 false (Throw NetworkError)).1.1
    (default_step 3 "compose_long_image" "裁剪拼接"
       "裁剪题目图片，跨页内容智能拼接" "ph-scissors") = Return true.
Proof.
  assert (task_of two_completed ≠ None) as Htask by discriminate.
  pose proof (startStep_rejected two_completed third_step 2 false NetworkError
                eq_refl eq_refl Htask eq_refl) as H.
  revert H. destruct (startStep two_completed 2 false (Throw NetworkError))
    as [[s' fx] r].
  intros (_ & _ & Hp & Hcan). split; [exact Hp|]. by apply Hcan.
Defined.

Lemma onStatus_pauses_manual_witness :
  task_status
    (onStatus (with_task_status two_completed processing)
       (Some three_completed) "pending").1 = paused.
Proof.
  pose proof (onStatus_pauses_manual
                (with_task_status two_completed processing) three_completed
                eq_refl ltac:(simpl; lia)
                ltac:(repeat (constructor; [discriminate|]); constructor))
    as H.
  revert H. destruct (onStatus (with_task_status two_completed processing)
                        (Some three_completed) "pending") as [s' fx].
  by intros (Hp & _).
Defined.

Lemma uploadFile_manual_ready_witness :
  canStartStep
    (uploadFile
       {| taskId := None; task_status := idle; mode := auto;
          steps := createDefaultSteps |}
       manual
       (Return {| up_task_id := "t";
                  up_steps := Some [ {| rs_status := completed;
                                        rs_artifact_count := Some 3 |} ] |})
       (Return tt)).1
    third_step = Return true.
Proof.
  pose proof (uploadFile_manual_ready
                {| taskId := None; task_status := idle; mode := auto;
                   steps := createDefaultSteps |}
                {| up_task_id := "t";
                   up_steps := Some [ {| rs_status := completed;
                                         rs_artifact_count := Some 3 |} ] |}
                (Return tt) eq_refl) as H.
  revert H. destruct (uploadFile _ _ _ _) as [s' fx].
  intros H. apply H; [|done].
  intros rs [= <-]. repeat (constructor; [discriminate|]). constructor.
Defined.

End TaskStoreMoreWitnesses.

Section ProgressFacts.

Import TaskStore.

Lemma progress_share_bounds (x : Step) :
  (0 <= progress_share x <= 1)%Q.
Proof.
  unfold progress_share. destruct (status x); try (split; discriminate).
  destruct (progress x) as [p|]; [|split; discriminate].
  split.
  - apply Q.min_glb; [discriminate|apply Q.le_max_l].
  - apply Q.le_min_l.
Qed.

Lemma progress_sum_bounds (l : list Step) (acc : Q) :
  (acc <= foldl (λ a x, a + progress_share x) acc l
   <= acc + inject_Z (Z.of_nat (length l)))%Q.
Proof.
  revert acc. induction l as [|x l IH]; intros acc.
  - simpl. change (inject_Z (Z.of_nat 0)) with 0%Q. lra.
  - cbn [foldl length]. rewrite Nat2Z.inj_succ, <- Z.add_1_r, inject_Z_plus.
    destruct (IH (acc + progress_share x)%Q) as [H1 H2].
    pose proof (progress_share_bounds x) as [H3 H4].
    change (inject_Z 1) with 1%Q. lra.
Qed.

Lemma progress_sum_done (l : list Step) (acc : Q) :
  Forall (λ x, status x = completed ∨ status x = skipped) l →
  (foldl (λ a x, a + progress_share x) acc l
   == acc + inject_Z (Z.of_nat (length l)))%Q.
Proof.
  intros H. revert acc. induction H as [|x l Hx _ IH]; intros acc.
  - simpl. change (inject_Z (Z.of_nat 0)) with 0%Q. lra.
  - cbn [foldl length]. rewrite Nat2Z.inj_succ, <- Z.add_1_r, inject_Z_plus.
    rewrite IH. change (inject_Z 1) with 1%Q.
    assert (progress_share x = 1%Q) as ->
      by (unfold progress_share; by destruct Hx as [-> | ->]).
    lra.
Qed.

(** The overall progress, in exact arithmetic, is a percentage: between
    0 and 100 for every list of steps, 0 for no steps, and 100 when every
    step is completed or skipped. *)
Theorem progressPercent_bounds (s : store) :
  (0 <= progressPercent s <= 100)%Q ∧
  (steps s = [] → progressPercent s = 0%Q) ∧
  (steps s ≠ [] →
   Forall (λ x, status x = completed ∨ status x = skipped) (steps s) →
   (progressPercent s == 100)%Q).
Proof.
  unfold progressPercent.
  destruct (steps s) as [|x l] eqn:E; [repeat split; (discriminate || done)|].
  set (n := inject_Z (Z.of_nat (length (x :: l)))).
  assert (0 < n)%Q as Hn.
  { unfold n. change 0%Q with (inject_Z 0). rewrite <- Zlt_Qlt. simpl. lia. }
  pose proof (progress_sum_bounds (x :: l) 0) as [H1 H2]. fold n in H2.
  set (sum := foldl _ 0%Q (x :: l)) in *.
  assert (0 <= sum / n <= 1)%Q as [H3 H4].
  { split.
    - apply Qle_shift_div_l; [done|]. lra.
    - apply Qle_shift_div_r; [done|]. lra. }
  split; [split; lra|]. split; [done|].
  intros _ Hdone.
  pose proof (progress_sum_done (x :: l) 0 Hdone) as Hs. fold n sum in Hs.
  rewrite Hs. field. lra.
Qed.

End ProgressFacts.

(** ** The log store *)

Section LogsStoreFacts.

Import LogsStore.

Lemma shift_excess_logs (fuel : nat) (l : list LogEntry) (seen : gset string) :
  (length l ≤ fuel)%nat →
  (shift_excess fuel l seen).1 = drop (length l - MAX_LOGS) l.
Proof.
  revert l seen. induction fuel as [|fuel IH]; intros l seen Hlen.
  - destruct l; [done|simpl in Hlen; lia].
  - cbn [shift_excess]. destruct (Nat.ltb_spec MAX_LOGS (length l)) as [Hgt|Hle].
    + destruct l as [|removed rest]; [simpl in Hgt; unfold MAX_LOGS in Hgt; lia|].
      rewrite IH by (simpl in Hlen; lia).
      simpl in Hgt. cbn [length].
      replace (S (length rest) - MAX_LOGS)%nat
        with (S (length rest - MAX_LOGS)) by lia.
      done.
    + replace (length l - MAX_LOGS)%nat with 0%nat by lia. done.
Qed.

Lemma shift_excess_seen (fuel : nat) (l : list LogEntry) (seen : gset string) :
  seen ⊆ list_to_set (id <$> l) →
  (shift_excess fuel l seen).2
  ⊆ list_to_set (id <$> (shift_excess fuel l seen).1).
Proof.
  revert l seen. induction fuel as [|fuel IH]; intros l seen Hsub; [done|].
  cbn [shift_excess]. destruct (MAX_LOGS <? length l)%nat; [|done].
  destruct l as [|removed rest]; [done|].
  apply IH. simpl in Hsub. set_solver.
Qed.

(** [addLog] keeps the newest entries: the list afterwards is the old list
    with the new entry at its end, cut at the front to [MAX_LOGS] entries;
    so it never holds more than [MAX_LOGS], whatever it held before. *)
Theorem addLog_keeps_newest (s : store) (entry : LogEntry) :
  logs (addLog s entry)
  = drop (length (logs s) + 1 - MAX_LOGS) (logs s ++ [entry]) ∧
  (length (logs (addLog s entry)) ≤ MAX_LOGS)%nat ∧
  last (logs (addLog s entry)) = Some entry ∧
  cursor (addLog s entry) = cursor s.
Proof.
  unfold addLog.
  pose proof (shift_excess_logs (length (logs s ++ [entry]))
                (logs s ++ [entry]) (seenIds s) ltac:(done)) as H.
  destruct (shift_excess _ _ _) as [l seen]. simpl in *. subst l.
  rewrite length_app. simpl.
  split; [done|]. split; [|split; [|done]].
  - rewrite length_drop, length_app. simpl. unfold MAX_LOGS. lia.
  - rewrite drop_app_le by (unfold MAX_LOGS; lia).
    by rewrite last_snoc.
Qed.

Lemma appendLog_seen_subset (s : store) (log : LogEntry) :
  seenIds s ⊆ list_to_set (id <$> logs s) →
  seenIds (appendLog s log) ⊆ list_to_set (id <$> logs (appendLog s log)).
Proof.
  intros H. unfold appendLog. case_decide; [done|]. simpl.
  rewrite fmap_app. set_solver.
Qed.

Lemma appendLogs_seen_subset (l : list LogEntry) : ∀ s : store,
  seenIds s ⊆ list_to_set (id <$> logs s) →
  seenIds (appendLogs s l) ⊆ list_to_set (id <$> logs (appendLogs s l)).
Proof.
  unfold appendLogs. induction l as [|log l IH]; intros s H; [done|].
  simpl. apply IH. by apply appendLog_seen_subset.
Qed.

Lemma size_list_to_set_length (l : list string) :
  (size (list_to_set l : gset string) ≤ length l)%nat.
Proof.
  induction l as [|x l IH]; [by rewrite list_to_set_nil, size_empty|].
  rewrite list_to_set_cons, size_union_alt, size_singleton. simpl.
  assert (size (list_to_set l ∖ {[x]} : gset string)
          ≤ size (list_to_set l : gset string))%nat
    by (apply subseteq_size; set_solver).
  lia.
Qed.

(** However the store is used, every id it remembers as seen is the id of
    an entry that is still in the list: trimming forgets the ids of the
    entries it drops, so the set never outgrows the list. *)
Theorem seenIds_of_listed_logs (actions : list action) :
  seenIds (foldl perform empty actions)
  ⊆ list_to_set (id <$> logs (foldl perform empty actions)) ∧
  (size (seenIds (foldl perform empty actions))
   ≤ length (logs (foldl perform empty actions)))%nat.
Proof.
  assert (∀ s : store,
            seenIds s ⊆ list_to_set (id <$> logs s) →
            seenIds (foldl perform s actions)
            ⊆ list_to_set (id <$> logs (foldl perform s actions))) as Hinv.
  { induction actions as [|a actions IH]; intros s H; [done|].
    simpl. apply IH. destruct a as [entry|log|newLogs|total|]; simpl.
    - unfold addLog.
      pose proof (shift_excess_seen (length (logs s ++ [entry]))
                    (logs s ++ [entry]) (seenIds s)) as Hs.
      destruct (shift_excess _ _ _) as [l seen]. simpl in *.
      apply Hs. rewrite fmap_app. set_solver.
    - by apply appendLog_seen_subset.
    - by apply appendLogs_seen_subset.
    - done.
    - done. }
  pose proof (Hinv empty ltac:(done)) as H. split; [done|].
  etrans; [apply (subseteq_size _ _ H)|].
  etrans; [apply size_list_to_set_length|]. by rewrite length_fmap.
Qed.

Lemma appendLog_seen_mono (s : store) (log : LogEntry) :
  seenIds s ⊆ seenIds (appendLog s log) ∧ id log ∈ seenIds (appendLog s log).
Proof. unfold appendLog. case_decide; simpl; set_solver. Qed.

Lemma appendLogs_seen_all (l : list LogEntry) : ∀ s : store,
  seenIds s ⊆ seenIds (appendLogs s l) ∧
  ∀ log, log ∈ l → id log ∈ seenIds (appendLogs s l).
Proof.
  unfold appendLogs. induction l as [|x l IH]; intros s.
  - split; [done|]. by intros log ?%elem_of_nil.
  - simpl. destruct (IH (appendLog s x)) as [IH1 IH2].
    destruct (appendLog_seen_mono s x) as [H1 H2].
    split; [set_solver|].
    intros log [->|Hin]%elem_of_cons; [set_solver|by apply IH2].
Qed.

Lemma appendLogs_all_seen (l : list LogEntry) : ∀ s : store,
  (∀ log, log ∈ l → id log ∈ seenIds s) → appendLogs s l = s.
Proof.
  unfold appendLogs. induction l as [|x l IH]; intros s H; [done|].
  simpl. assert (appendLog s x = s) as ->.
  { unfold appendLog. rewrite decide_True; [done|]. apply H. set_solver. }
  apply IH. intros log Hin. apply H. set_solver.
Qed.

Lemma appendLogs_prefix (l : list LogEntry) : ∀ s : store,
  logs s `prefix_of` logs (appendLogs s l) ∧
  cursor (appendLogs s l) = cursor s.
Proof.
  unfold appendLogs. induction l as [|x l IH]; intros s; [done|].
  simpl. destruct (IH (appendLog s x)) as [IH1 IH2].
  unfold appendLog in *. case_decide; [done|]. simpl in *.
  split; [|done]. etrans; [|exact IH1]. by apply prefix_app_r.
Qed.

(** Appending a batch of server logs a second time changes nothing (a
    replayed batch is ignored); appending only ever adds at the end: the
    entries already listed stay, in their order, and the cursor is left
    alone. *)
Theorem appendLogs_replay (s : store) (newLogs : list LogEntry) :
  appendLogs (appendLogs s newLogs) newLogs = appendLogs s newLogs ∧
  logs s `prefix_of` logs (appendLogs s newLogs) ∧
  cursor (appendLogs s newLogs) = cursor s.
Proof.
  split; [|apply appendLogs_prefix].
  apply appendLogs_all_seen. apply appendLogs_seen_all.
Qed.

Lemma appendLog_unique (s : store) (log : LogEntry) :
  NoDup (id <$> logs s) →
  list_to_set (id <$> logs s) ⊆ seenIds s →
  NoDup (id <$> logs (appendLog s log)) ∧
  list_to_set (id <$> logs (appendLog s log)) ⊆ seenIds (appendLog s log).
Proof.
  intros Hnd Hsub. unfold appendLog. case_decide as Hin; [done|]. simpl.
  rewrite fmap_app. simpl. split; [|set_solver].
  apply NoDup_app. split; [done|]. split; [|apply NoDup_singleton].
  intros x Hx ->%list_elem_of_singleton. apply Hin. set_solver.
Qed.

(** While every listed entry is marked as seen (as after [reset], and as
    long as only server logs are appended), appended logs never repeat an
    id: the ids in the list stay pairwise distinct. *)
Theorem appendLogs_unique_ids (s : store) (newLogs : list LogEntry) :
  NoDup (id <$> logs s) →
  list_to_set (id <$> logs s) ⊆ seenIds s →
  NoDup (id <$> logs (appendLogs s newLogs)) ∧
  list_to_set (id <$> logs (appendLogs s newLogs))
  ⊆ seenIds (appendLogs s newLogs).
Proof.
  unfold appendLogs. revert s.
  induction newLogs as [|x l IH]; intros s Hnd Hsub; [done|].
  simpl. destruct (appendLog_unique s x Hnd Hsub) as [H1 H2].
  by apply IH.
Qed.

End LogsStoreFacts.

Section LogsStoreWitnesses.

Import LogsStore.

Local Abbreviation server_log i :=
  {| id := i; time := "12:00:00"; message := "page done"; type := "info" |}.

Lemma appendLogs_unique_ids_witness :
  NoDup (id <$> logs (appendLogs empty
                        [server_log "a"; server_log "a"; server_log "b"])).
Proof.
  apply (appendLogs_unique_ids empty
           [server_log "a"; server_log "a"; server_log "b"]).
  - simpl. apply NoDup_nil_2.
  - simpl. set_solver.
Defined.

End LogsStoreWitnesses.

(** ** The connection store *)

Section ConnectionFacts.

Import ConnectionStore.

Lemma clearRetryTimer_fields (s : store) :
  let s' := (clearRetryTimer s).1 in
  eventSource s' = eventSource s ∧ pollTimer s' = pollTimer s ∧
  connectionStatus s' = connectionStatus s ∧ retryCount s' = retryCount s ∧
  lastEventId s' = lastEventId s ∧ generation s' = generation s ∧
  retryTimer s' = None ∧
  (∀ g, pendingRetry s' = Some g → pendingRetry s = Some g).
Proof.
  unfold clearRetryTimer. destruct (retryTimer s) as [g|] eqn:E; simpl.
  - repeat split; try done. intros g'. by case_decide.
  - by repeat split.
Qed.

Lemma disconnectEventSourceInternal_fields (s : store) :
  let s' := (disconnectEventSourceInternal s).1 in
  eventSource s' = None ∧ pollTimer s' = pollTimer s ∧
  connectionStatus s' = connectionStatus s ∧ retryCount s' = retryCount s ∧
  lastEventId s' = lastEventId s ∧ generation s' = generation s ∧
  retryTimer s' = retryTimer s ∧ pendingRetry s' = pendingRetry s.
Proof.
  unfold disconnectEventSourceInternal.
  by destruct (eventSource s) eqn:E; simpl.
Qed.

Lemma stopPollingInternal_fields (s : store) :
  let s' := (stopPollingInternal s).1 in
  eventSource s' = eventSource s ∧ pollTimer s' = None ∧
  connectionStatus s' = connectionStatus s ∧ retryCount s' = retryCount s ∧
  lastEventId s' = lastEventId s ∧ generation s' = generation s ∧
  retryTimer s' = retryTimer s ∧ pendingRetry s' = pendingRetry s.
Proof.
  unfold stopPollingInternal. by destruct (pollTimer s) eqn:E; simpl.
Qed.

Lemma clean_fields (s : store) :
  let s' := (clean s).1 in
  eventSource s' = None ∧ pollTimer s' = None ∧
  connectionStatus s' = connectionStatus s ∧ retryCount s' = retryCount s ∧
  lastEventId s' = lastEventId s ∧ generation s' = generation s ∧
  retryTimer s' = None ∧
  (∀ g, pendingRetry s' = Some g → pendingRetry s = Some g).
Proof.
  unfold clean.
  pose proof (clearRetryTimer_fields s) as H1.
  destruct (clearRetryTimer s) as [s1 fx1].
  pose proof (disconnectEventSourceInternal_fields s1) as H2.
  destruct (disconnectEventSourceInternal s1) as [s2 fx2].
  pose proof (stopPollingInternal_fields s2) as H3.
  destruct (stopPollingInternal s2) as [s3 fx3].
  simpl in *.
  destruct H1 as (?&?&?&?&?&?&?&Hpd), H2 as (?&?&?&?&?&?&?&?),
           H3 as (?&?&?&?&?&?&?&?).
  repeat split; try congruence.
  intros g Hg. apply Hpd. congruence.
Qed.

Lemma remember_fields (s : store) (eventId : string) :
  let s' := remember s eventId in
  eventSource s' = eventSource s ∧ pollTimer s' = pollTimer s ∧
  connectionStatus s' = connectionStatus s ∧ retryCount s' = retryCount s ∧
  generation s' = generation s ∧
  retryTimer s' = retryTimer s ∧ pendingRetry s' = pendingRetry s.
Proof. unfold remember. by destruct (String.eqb eventId ""). Qed.

(** Closes the three parts of [conn_inv] of a state described field by
    field in terms of [s], of which [Hp] is the third part. *)
Local Ltac conn_solve s Hp :=
  repeat split; simpl in *; intros;
  repeat match goal with
    | H : Some ?a = Some ?b |- _ =>
        assert (a = b) by congruence; clear H
    | He : pendingRetry ?a = pendingRetry ?b,
      H : pendingRetry ?a = Some _ |- _ => rewrite He in H
    | Hq : ∀ g, pendingRetry ?a = Some g → _ = Some g,
      H : pendingRetry ?a = Some _ |- _ => apply Hq in H; simpl in H
    end;
  try discriminate;
  try match goal with
    | H : pendingRetry _ = Some ?g |- _ =>
        let Hg := fresh in
        assert (pendingRetry s = Some g) as Hg by congruence;
        apply Hp in Hg
    end;
  unfold MAX_RETRIES in *;
  first [ done | by left | by right | lia
        | left; congruence | right; congruence
        | match goal with
          | Hx : _ ∨ _ |- _ ∨ _ => destruct Hx; [left|right]; congruence
          end ].

Lemma handle_inv (s s' : store) (i : input) (fx : list effect) :
  handle s i = Some (s', fx) → conn_inv s → conn_inv s'.
Proof.
  intros H (Hex & Hr & Hp).
  destruct i; simpl in H.
  - injection H as H. apply (f_equal fst) in H. simpl in H. subst s'.
    unfold connectEventSource.
    pose proof (clean_fields (bump s)) as H.
    destruct (clean (bump s)) as [s1 fx1]. simpl in *.
    destruct H as (?&?&?&?&?&?&?&?). conn_solve s Hp.
  - injection H as H. apply (f_equal fst) in H. simpl in H. subst s'.
    unfold disconnectEventSource.
    pose proof (clearRetryTimer_fields (bump s)) as H1.
    destruct (clearRetryTimer (bump s)) as [s1 fx1].
    pose proof (disconnectEventSourceInternal_fields s1) as Hfields.
    destruct (disconnectEventSourceInternal s1) as [s2 fx2].
    simpl in *.
    destruct H1 as (?&?&?&?&?&?&?&?), Hfields as (?&?&?&?&?&?&?&?).
    destruct (connectionStatus s2); conn_solve s Hp.
  - injection H as H. apply (f_equal fst) in H. simpl in H. subst s'.
    unfold startPolling.
    pose proof (clean_fields (bump s)) as H.
    destruct (clean (bump s)) as [s1 fx1]. simpl in *.
    destruct H as (?&?&?&?&?&?&?&?). conn_solve s Hp.
  - injection H as H. apply (f_equal fst) in H. simpl in H. subst s'.
    unfold stopPolling.
    pose proof (stopPollingInternal_fields (bump s)) as H.
    destruct (stopPollingInternal (bump s)) as [s1 fx1]. simpl in *.
    destruct H as (?&?&?&?&?&?&?&?). conn_solve s Hp.
  - injection H as H. apply (f_equal fst) in H. simpl in H. subst s'.
    unfold reset.
    pose proof (clean_fields (bump s)) as H.
    destruct (clean (bump s)) as [s1 fx1]. simpl in *.
    destruct H as (?&?&?&?&?&?&?&?). conn_solve s Hp.
  - repeat case_decide; try discriminate; injection H as <- <-;
      conn_solve s Hp.
  - pose proof (remember_fields s eventId) as (?&?&?&?&?&?&?).
    repeat case_decide; try discriminate; injection H as <- <-;
      conn_solve s Hp.
  - pose proof (remember_fields s eventId) as (?&?&?&?&?&?&?).
    repeat case_decide; try discriminate; injection H as <- <-;
      conn_solve s Hp.
  - pose proof (remember_fields s eventId) as (?&?&?&?&?&?&?).
    pose proof (disconnectEventSourceInternal_fields (remember s eventId))
      as Hfields.
    repeat case_decide; try discriminate;
      [|injection H as <- <-; conn_solve s Hp].
    destruct (disconnectEventSourceInternal (remember s eventId)) as [s1 fx1].
    injection H as <- <-. simpl in *.
    destruct Hfields as (?&?&?&?&?&?&?&?). conn_solve s Hp.
  - pose proof (disconnectEventSourceInternal_fields s) as Hfields.
    repeat case_decide; try discriminate;
      [|injection H as <- <-; conn_solve s Hp].
    destruct (disconnectEventSourceInternal s) as [s1 fx1]. simpl in *.
    destruct Hfields as (?&?&?&?&?&?&?&?).
    destruct (Nat.ltb_spec (retryCount s1) MAX_RETRIES) as [Hlt|Hge];
      injection H as <- <-; conn_solve s Hp.
  - repeat case_decide; try discriminate;
      [|injection H as <- <-; conn_solve s Hp].
    injection H as H. apply (f_equal fst) in H. simpl in H. subst s'.
    unfold connectEventSource.
    pose proof (clean_fields
                  (bump (set_retryCount (fired s) (S (retryCount s))))) as H.
    destruct (clean (bump (set_retryCount (fired s) (S (retryCount s)))))
      as [s1 fx1]. simpl in *.
    destruct H as (?&?&?&?&?&?&?&?). conn_solve s Hp.
  - pose proof (stopPollingInternal_fields s) as Hfields.
    repeat case_decide; try discriminate.
    + injection H as <- <-. conn_solve s Hp.
    + injection H as H. apply (f_equal fst) in H. simpl in H. subst s'.
      destruct Hfields as (?&?&?&?&?&?&?&?). conn_solve s Hp.
  - destruct answer as [data|e]; [|injection H as <- <-; conn_solve s Hp].
    pose proof (stopPollingInternal_fields s) as Hfields.
    case_decide; [|injection H as <- <-; conn_solve s Hp].
    destruct (stopPollingInternal s) as [s1 fx1]. simpl in Hfields.
    destruct Hfields as (?&?&?&?&?&?&?&?).
    destruct (String.eqb (sd_status data) "completed");
      [injection H as <- <-; conn_solve s Hp|].
    destruct (String.eqb (sd_status data) "failed");
      injection H as <- <-; conn_solve s Hp.
Qed.

Lemma run_inv (inputs : list input) (s s' : store) (fx : list effect) :
  run s inputs = Some (s', fx) → conn_inv s → conn_inv s'.
Proof.
  revert s fx. induction inputs as [|i rest IH]; intros s fx H Hinv.
  - by injection H as <- <-.
  - simpl in H. destruct (handle s i) as [[s1 fx1]|] eqn:E1; [|done].
    simpl in H. destruct (run s1 rest) as [[s2 fx2]|] eqn:E2; [|done].
    injection H as <- <-. eapply IH; [done|]. by eapply handle_inv.
Qed.

Lemma initial_inv : conn_inv initial.
Proof. repeat split; simpl in *; try lia; try done. by left. Qed.

(** Whatever is called and whatever the browser delivers, the store never
    holds an [EventSource] and a polling interval at the same time. *)
Theorem one_transport_at_a_time (inputs : list input) (s : store)
    (fx : list effect) :
  run initial inputs = Some (s, fx) →
  eventSource s = None ∨ pollTimer s = None.
Proof. intros H. by destruct (run_inv _ _ _ _ H initial_inv). Qed.

(** Whatever is called and whatever the browser delivers, [retryCount]
    never exceeds [MAX_RETRIES]. *)
Theorem retryCount_bounded (inputs : list input) (s : store)
    (fx : list effect) :
  run initial inputs = Some (s, fx) → (retryCount s ≤ MAX_RETRIES)%nat.
Proof. intros H. by destruct (run_inv _ _ _ _ H initial_inv) as (_&?&_). Qed.

(** A callback of an earlier generation changes nothing that the caller
    can see: it calls no handler, no log store and no API, makes no new
    connection or timer, and leaves the status, the retry count, the last
    event id and the held [EventSource] as they are. *)
Theorem stale_callback_ignored (s s' : store) (i : input) (g : nat)
    (fx : list effect) :
  closure_of i = Some g →
  generation s ≠ g →
  handle s i = Some (s', fx) →
  forallb (λ e, negb (is_delivery e)) fx = true ∧
  eventSource s' = eventSource s ∧
  connectionStatus s' = connectionStatus s ∧
  retryCount s' = retryCount s ∧
  lastEventId s' = lastEventId s ∧
  generation s' = generation s.
Proof.
  intros Hc Hg H.
  destruct i; simpl in Hc; try discriminate; injection Hc as ->;
    simpl in H; repeat case_decide; try done;
    try (injection H as <- <-; by repeat split).
  - unfold stopPollingInternal in H.
    destruct (pollTimer s); injection H as <- <-; by repeat split.
  - destruct answer; injection H as <- <-; by repeat split.
Qed.

Lemma run_app (s : store) (i1 i2 : list input) :
  run s (i1 ++ i2) =
  '(s1, fx1) ← run s i1; '(s2, fx2) ← run s1 i2; Some (s2, fx1 ++ fx2).
Proof.
  revert s. induction i1 as [|i i1 IH]; intros s; simpl.
  - by destruct (run s i2) as [[s2 fx2]|].
  - destruct (handle s i) as [[s1 fx1]|]; [|done]. simpl. rewrite IH.
    destruct (run s1 i1) as [[s2 fx2]|]; [|done]. simpl.
    destruct (run s2 i2) as [[s3 fx3]|]; [|done]. simpl.
    by rewrite app_assoc.
Qed.

(** One failure and its retry, while retries are left. *)
Lemma failing_round (random : nat → Q) (taskId : string) (s : store) :
  eventSource s = Some (generation s) →
  (retryCount s < MAX_RETRIES)%nat →
  ∃ s1 fx1,
    run s [EsError (generation s) (random (generation s));
           RetryFires (generation s) taskId] = Some (s1, fx1) ∧
    eventSource s1 = Some (generation s1) ∧
    generation s1 = S (generation s) ∧
    retryCount s1 = S (retryCount s) ∧
    length (filter is_NewEventSource fx1) = 1%nat ∧
    filter is_OnFallbackToPolling fx1 = [].
Proof.
  destruct s as [es pt rt st rc le g pr]. simpl. intros -> Hlt.
  unfold handle. simpl. rewrite !decide_True by done. simpl.
  destruct (Nat.ltb_spec rc MAX_RETRIES) as [_|?]; [|lia]. simpl.
  rewrite !decide_True by done. simpl.
  unfold connectEventSource, clean, clearRetryTimer,
    disconnectEventSourceInternal, stopPollingInternal. simpl.
  destruct pt; simpl; eexists _, _; (split; [reflexivity|]); by simpl.
Qed.

Lemma failing_rounds_run (random : nat → Q) (taskId : string) (k : nat)
    (s : store) :
  eventSource s = Some (generation s) →
  (retryCount s + k ≤ MAX_RETRIES)%nat →
  ∃ s1 fx1,
    run s (failing_rounds random taskId (generation s) k) = Some (s1, fx1) ∧
    eventSource s1 = Some (generation s1) ∧
    generation s1 = (generation s + k)%nat ∧
    retryCount s1 = (retryCount s + k)%nat ∧
    length (filter is_NewEventSource fx1) = k ∧
    filter is_OnFallbackToPolling fx1 = [].
Proof.
  revert s. induction k as [|k IH]; intros s Hes Hrc.
  - exists s, []. simpl. repeat split; try done; lia.
  - destruct (failing_round random taskId s Hes ltac:(lia))
      as (s1 & fx1 & Hrun & Hes1 & Hg1 & Hrc1 & Hn1 & Hf1).
    destruct (IH s1 Hes1 ltac:(lia))
      as (s2 & fx2 & Hrun2 & Hes2 & Hg2 & Hrc2 & Hn2 & Hf2).
    change (failing_rounds random taskId (generation s) (S k))
      with ([EsError (generation s) (random (generation s));
             RetryFires (generation s) taskId]
            ++ failing_rounds random taskId (S (generation s)) k).
    rewrite run_app, Hrun. simpl. rewrite <- Hg1, Hrun2. simpl.
    eexists _, _. split; [reflexivity|].
    rewrite !filter_app, length_app, Hn1, Hn2, Hf1, Hf2.
    repeat split; try done; lia.
Qed.

(** A connection whose every [EventSource] fails is retried exactly
    [MAX_RETRIES] times; the error after the last retry hands over to
    polling, with the retry count back at zero. *)
Theorem falls_back_after_max_retries (random : nat → Q) (taskId : string)
    (s : store) :
  eventSource s = Some (generation s) →
  retryCount s = 0%nat →
  ∃ s' fx,
    run s (failing_rounds random taskId (generation s) MAX_RETRIES ++
           [EsError (generation s + MAX_RETRIES)
                    (random (generation s + MAX_RETRIES)%nat)])
    = Some (s', fx ++ [OnFallbackToPolling]) ∧
    length (filter is_NewEventSource fx) = MAX_RETRIES ∧
    filter is_OnFallbackToPolling fx = [] ∧
    eventSource s' = None ∧
    connectionStatus s' = disconnected ∧
    retryCount s' = 0%nat.
Proof.
  intros Hes Hrc.
  destruct (failing_rounds_run random taskId MAX_RETRIES s Hes ltac:(lia))
    as (s1 & fx1 & Hrun & Hes1 & Hg1 & Hrc1 & Hn1 & Hf1).
  rewrite run_app, Hrun. simpl. rewrite <- Hg1.
  rewrite !decide_True by done.
  unfold disconnectEventSourceInternal. rewrite Hes1. simpl.
  destruct (Nat.ltb_spec (retryCount s1) MAX_RETRIES) as [?|_]; [lia|].
  simpl. exists (set_status (set_retryCount (set_eventSource s1 None) 0)
                   disconnected), (fx1 ++ [CloseEventSource (generation s1)]).
  split; [by rewrite <- app_assoc|].
  rewrite !filter_app, length_app, Hn1, Hf1. by simpl.
Qed.

Lemma retry_base_bounds (n : nat) :
  (BASE_DELAY ≤ Z.min (BASE_DELAY * 2 ^ Z.of_nat n) MAX_DELAY ≤ MAX_DELAY)%Z.
Proof.
  unfold BASE_DELAY, MAX_DELAY.
  assert (1 ≤ 2 ^ Z.of_nat n)%Z by (apply Z.pow_le_mono_r with (b := 0%Z); lia).
  lia.
Qed.

Lemma jitter_bounds (b : Z) (r : Q) :
  (0 ≤ b)%Z → (0 <= r)%Q → (r <= 1)%Q →
  (b ≤ Qfloor (inject_Z b + r * inject_Z b * (1 # 2)) ≤ b + b / 2)%Z.
Proof.
  intros Hb Hr0 Hr1.
  assert (HB : (0 <= inject_Z b)%Q)
    by (change 0%Q with (inject_Z 0); by rewrite <- Zle_Qle).
  split.
  - rewrite <- (Qfloor_Z b) at 1. apply Qfloor_resp_le. nra.
  - assert (Hup : (inject_Z b + r * inject_Z b * (1 # 2)
                   <= inject_Z b * (3 # 2))%Q) by nra.
    apply Qfloor_resp_le in Hup. etransitivity; [exact Hup|].
    assert (Heq : (inject_Z b * (3 # 2) == (3 * b) # 2)%Q).
    { unfold inject_Z, Qeq, Qmult. simpl. lia. }
    rewrite Heq. unfold Qfloor. simpl.
    Z.div_mod_to_equations. lia.
Qed.

(** In exact arithmetic and for a [Math.random()] between 0 and 1, a
    retry waits at least the backoff delay for the current retry count
    and at most half as long again: never less than [BASE_DELAY], never
    more than one and a half times [MAX_DELAY]. *)
Theorem retry_delay_bounds (s : store) (r : Q) :
  (0 <= r)%Q → (r <= 1)%Q →
  let baseDelay :=
    Z.min (BASE_DELAY * 2 ^ Z.of_nat (retryCount s)) MAX_DELAY in
  (baseDelay ≤ getRetryDelayWithJitter s r ≤ baseDelay + baseDelay / 2)%Z ∧
  (BASE_DELAY ≤ getRetryDelayWithJitter s r ≤ MAX_DELAY + MAX_DELAY / 2)%Z.
Proof.
  intros Hr0 Hr1 baseDelay.
  pose proof (retry_base_bounds (retryCount s)) as Hb. fold baseDelay in Hb.
  pose proof (jitter_bounds baseDelay r ltac:(unfold BASE_DELAY in Hb; lia)
                Hr0 Hr1) as Hj.
  unfold getRetryDelayWithJitter. fold baseDelay. split; [done|].
  assert (baseDelay / 2 ≤ MAX_DELAY / 2)%Z by (apply Z.div_le_mono; lia).
  lia.
Qed.

(** While retries are left, each retry waits at least as long as the one
    before it, whatever the jitter of either. *)
Theorem retry_delays_grow (s s' : store) (r r' : Q) :
  (0 <= r)%Q → (r <= 1)%Q → (0 <= r')%Q → (r' <= 1)%Q →
  retryCount s' = S (retryCount s) →
  (retryCount s' < MAX_RETRIES)%nat →
  (getRetryDelayWithJitter s r ≤ getRetryDelayWithJitter s' r')%Z.
Proof.
  intros Hr0 Hr1 Hr0' Hr1' Hs Hlt.
  pose proof (retry_delay_bounds s r Hr0 Hr1) as [[_ Hup] _].
  pose proof (retry_delay_bounds s' r' Hr0' Hr1') as [[Hlo _] _].
  rewrite Hs in Hlo. unfold MAX_RETRIES in Hlt.
  etransitivity; [exact Hup|]. etransitivity; [|exact Hlo].
  unfold BASE_DELAY, MAX_DELAY.
  assert (retryCount s = 0 ∨ retryCount s = 1 ∨ retryCount s = 2 ∨
          retryCount s = 3)%nat as [E|[E|[E|E]]] by lia;
    rewrite E; by vm_compute.
Qed.

End ConnectionFacts.

Section ConnectionWitnesses.

Import ConnectionStore.

(** A connection that opens, fails, is retried, and is then replaced by
    polling. *)
Local Abbreviation retried_then_polling :=
  [CallConnect "t"; EsOpen 1; EsError 1 (1 # 2); RetryFires 1 "t";
   CallStartPolling].

(** The store after [connectEventSource] and [stopPolling]: it still
    holds the [EventSource] of generation 1. *)
Local Abbreviation after_stopPolling :=
  {| eventSource := Some 1%nat; pollTimer := None; retryTimer := None;
     connectionStatus := disconnected; retryCount := 0;
     lastEventId := None; generation := 2; pendingRetry := None |}.

Lemma one_transport_at_a_time_witness :
  ∃ s fx, run initial retried_then_polling = Some (s, fx) ∧
          (eventSource s = None ∨ pollTimer s = None).
Proof.
  assert (∃ s fx, run initial retried_then_polling = Some (s, fx))
    as (s & fx & Hrun) by (eexists _, _; vm_compute; reflexivity).
  exists s, fx. split; [exact Hrun|].
  exact (one_transport_at_a_time _ _ _ Hrun).
Defined.

Lemma retryCount_bounded_witness :
  ∃ s fx, run initial retried_then_polling = Some (s, fx) ∧
          (retryCount s ≤ MAX_RETRIES)%nat.
Proof.
  assert (∃ s fx, run initial retried_then_polling = Some (s, fx))
    as (s & fx & Hrun) by (eexists _, _; vm_compute; reflexivity).
  exists s, fx. split; [exact Hrun|].
  exact (retryCount_bounded _ _ _ Hrun).
Defined.

Lemma stale_callback_ignored_witness :
  ∃ s' fx,
    handle after_stopPolling (EsStep 1 "5" (Some (Some []))) = Some (s', fx) ∧
    forallb (λ e, negb (is_delivery e)) fx = true ∧
    lastEventId s' = None.
Proof.
  assert (∃ s' fx, handle after_stopPolling (EsStep 1 "5" (Some (Some [])))
                   = Some (s', fx))
    as (s' & fx & H) by (eexists _, _; vm_compute; reflexivity).
  exists s', fx. split; [exact H|].
  destruct (stale_callback_ignored after_stopPolling s'
              (EsStep 1 "5" (Some (Some []))) 1 fx eq_refl
              ltac:(simpl; lia) H) as (Hfx & _ & _ & _ & Hid & _).
  split; [exact Hfx | exact Hid].
Defined.

Lemma falls_back_after_max_retries_witness :
  ∃ s' fx,
    run (connectEventSource initial "t").1
        (failing_rounds (λ _, 1 # 2) "t" 1 MAX_RETRIES ++
         [EsError (1 + MAX_RETRIES) (1 # 2)])
    = Some (s', fx ++ [OnFallbackToPolling]) ∧
    length (filter is_NewEventSource fx) = MAX_RETRIES.
Proof.
  destruct (falls_back_after_max_retries (λ _, 1 # 2) "t"
              (connectEventSource initial "t").1 eq_refl eq_refl)
    as (s' & fx & H1 & H2 & _).
  exists s', fx. split; [exact H1 | exact H2].
Defined.

Lemma retry_delay_bounds_witness :
  (BASE_DELAY ≤ getRetryDelayWithJitter initial (1 # 2)
   ≤ MAX_DELAY + MAX_DELAY / 2)%Z.
Proof.
  apply (retry_delay_bounds initial (1 # 2));
    unfold Qle; simpl; lia.
Defined.

Lemma retry_delays_grow_witness :
  (getRetryDelayWithJitter initial 1
   ≤ getRetryDelayWithJitter (set_retryCount initial 1) 0)%Z.
Proof.
  apply (retry_delays_grow initial (set_retryCount initial 1) 1 0);
    unfold Qle, MAX_RETRIES; simpl; lia.
Defined.

End ConnectionWitnesses.

(** ** The SSE reader on well-framed streams *)

Section SseMore.

(** The unfolding of [drain] proved above, under a name that the
    equations of the module do not hide. *)
Local Abbreviation drain_cut := drain_unfold.

Import Sse.

Context {T : Type}.
Variable JSON_parse : jsstring → option T.
Context {decoder : Type}.
Variable decode : decoder → list Byte.byte → jsstring * decoder.
Variable new_decoder : decoder.

Lemma indexOf_boundary_first (a rest : jsstring) :
  Forall (λ c, c ≠ LF) a →
  indexOf boundary (a ++ LF :: LF :: rest) = Some (length a).
Proof.
  induction 1 as [|c a Hc Ha IH]; [done|].
  cbn [app length indexOf]. rewrite IH.
  replace (startsWith boundary (c :: a ++ LF :: LF :: rest)) with false; [done|].
  unfold boundary. cbn [startsWith].
  destruct (N.eqb_spec LF c) as [E|]; [by destruct Hc|done].
Qed.

Lemma frame_head_line (p : jsstring) :
  Forall (λ c, c ≠ LF ∧ c ≠ CR) p →
  Forall (λ c, c ≠ LF) (data_prefix ++ 32%N :: p).
Proof.
  intros Hp. unfold data_prefix. simpl.
  repeat (constructor; [discriminate|]).
  eapply Forall_impl; [exact Hp|]. by intros c [? _].
Qed.

Lemma split_lines_one (s : jsstring) :
  Forall (λ c, c ≠ LF) s → split_lines s = [s].
Proof.
  induction 1 as [|c s Hc Hs IH]; [done|].
  simpl. rewrite IH. by destruct (N.eqb_spec c LF).
Qed.

Lemma trimStart_length (s : jsstring) :
  (length (trimStart s) ≤ length s)%nat ∧
  (length (trimStart s) = length s → trimStart s = s).
Proof.
  induction s as [|c s [IH1 IH2]]; [done|].
  simpl. destruct (is_space c); [|done]. split; [lia|]. lia.
Qed.

Lemma trim_fixed (p : jsstring) :
  trim p = p → trimStart p = p ∧ trimEnd p = p.
Proof.
  intros H. unfold trim in H.
  assert (Hlen : (length (trimEnd (trimStart p)) ≤ length (trimStart p))%nat).
  { unfold trimEnd. rewrite length_reverse.
    etransitivity; [apply trimStart_length|]. by rewrite length_reverse. }
  rewrite H in Hlen.
  destruct (trimStart_length p) as [H1 H2].
  assert (trimStart p = p) as E by (apply H2; lia).
  split; [done|]. by rewrite E in H.
Qed.

Lemma extractData_frame (p : jsstring) :
  one_line_payload p → extractData (data_prefix ++ 32%N :: p) = p.
Proof.
  intros (Hne & Hline & Htrim).
  destruct (trim_fixed p Htrim) as [Hs He].
  unfold extractData. rewrite split_lines_one.
  - simpl. change (trimStart p) with (trimStart p). rewrite Hs.
    unfold trim. by rewrite Hs.
  - by apply frame_head_line.
Qed.

Lemma emit_frame (p : jsstring) :
  one_line_payload p →
  emit JSON_parse (data_prefix ++ 32%N :: p)
  = match JSON_parse p with Some v => [v] | None => [] end.
Proof.
  intros Hp. unfold emit. rewrite (extractData_frame p Hp).
  destruct Hp as (Hne & _). by destruct p.
Qed.

Lemma frame_app (p rest : jsstring) :
  frame p ++ rest = (data_prefix ++ 32%N :: p) ++ LF :: LF :: rest.
Proof.
  unfold frame, data_prefix, boundary. simpl. by rewrite <- app_assoc.
Qed.

Lemma drain_frames (payloads : list jsstring) :
  Forall one_line_payload payloads →
  drain JSON_parse (concat (frame <$> payloads))
  = (omap JSON_parse payloads, []).
Proof.
  induction 1 as [|p ps Hp Hps IH].
  - by rewrite drain_cut.
  - cbn [fmap list_fmap concat]. rewrite frame_app.
    rewrite drain_cut.
    rewrite indexOf_boundary_first by (apply frame_head_line, Hp).
    cbv zeta. rewrite take_app_length.
    replace (drop (length (data_prefix ++ 32%N :: p) + 2)
               ((data_prefix ++ 32%N :: p) ++ LF :: LF :: concat (frame <$> ps)))
      with (concat (frame <$> ps))
      by (by rewrite <- drop_drop, drop_app_length).
    rewrite IH, (emit_frame p Hp). simpl.
    by destruct (JSON_parse p).
Qed.

Lemma frames_no_cr (payloads : list jsstring) :
  Forall one_line_payload payloads →
  Forall (λ c, c ≠ CR) (concat (frame <$> payloads)).
Proof.
  induction 1 as [|p ps Hp Hps IH]; [done|].
  cbn [fmap list_fmap concat]. apply Forall_app. split; [|done].
  unfold frame, data_prefix, boundary. simpl.
  repeat (constructor; [discriminate|]).
  apply Forall_app. split; [|by repeat (constructor; [discriminate|])].
  destruct Hp as (_ & Hline & _).
  eapply Forall_impl; [exact Hline|]. by intros c [_ ?].
Qed.

(** A stream that carries one frame ['data: <payload>'] and a blank line
    per payload is read back in full and in order, however the bytes are
    cut into chunks and however the stream ends: the reader yields the
    parse of every payload that is JSON, and skips the others. *)
Theorem frames_read_back (st : stream) (payloads : list jsstring) :
  locked st = false →
  Forall one_line_payload payloads →
  decoded decode new_decoder (chunks st) = concat (frame <$> payloads) →
  (readSseJson JSON_parse decode new_decoder st).1
  = omap JSON_parse payloads.
Proof.
  intros Hl Hps Hdec. unfold readSseJson. rewrite Hl.
  rewrite read_loop_drain by done. rewrite Hdec. simpl.
  rewrite remove_cr_id by by apply frames_no_cr.
  rewrite drain_frames by done.
  destruct (end_of_stream st); simpl; [|done].
  by rewrite app_nil_r.
Qed.

End SseMore.

Section SseMoreWitnesses.

Import Sse.

(** ["data: {}"] and ["data: x"], each closed by a blank line, in two
    chunks that cut the first blank line. *)
Local Abbreviation framed_chunks :=
  [ String.list_byte_of_string "data: {}" ++ [Byte.x0a];
    [Byte.x0a] ++ String.list_byte_of_string "data: x"
      ++ [Byte.x0a; Byte.x0a] ].

Lemma frames_read_back_witness :
  (readSseJson
     (λ s : jsstring, match s with 123%N :: _ => Some s | _ => None end)
     (λ (_ : unit) (value : list Byte.byte), (Byte.to_N <$> value, tt)) tt
     {| locked := false; chunks := framed_chunks;
        end_of_stream := Errored |}).1
  = [[123; 125]%N].
Proof.
  apply (frames_read_back
           (λ s : jsstring, match s with 123%N :: _ => Some s | _ => None end)
           (λ (_ : unit) (value : list Byte.byte), (Byte.to_N <$> value, tt))
           tt
           {| locked := false; chunks := framed_chunks;
              end_of_stream := Errored |}
           [[123; 125]%N; [120]%N]).
  - reflexivity.
  - repeat (constructor;
            [split; [discriminate|];
             split; [repeat (constructor; [split; discriminate|]); constructor
                    |reflexivity]|]).
    constructor.
  - vm_compute. reflexivity.
Defined.

End SseMoreWitnesses.
